(** * Sound-to-Text: the recording controller of [App.tsx]

    A shallow embedding of the session life cycle of the transcriber
    component: the React state and refs of [App], the [stopRecording] and
    [startRecording] callbacks, the four callbacks handed to
    [ai.live.connect], and the [onaudioprocess] handler that pipes encoded
    frames into the session promise.

    Conventions.
    - A JavaScript string is its sequence of UTF-16 code units.
    - Host objects (streams, audio contexts, nodes, sessions) are handles
      chosen by the host; the results of host calls are event payloads.
    - Handlers are written in a state-and-exception monad: an exception
      keeps the mutations made before it, as in JavaScript.
    - A React state setter is modelled by its net effect once React has
      processed the update queue: updaters run once each, in the order in
      which they were enqueued. *)

From Stdlib Require Import ZArith NArith QArith Qround Ascii String List Lia Bool.
From stdpp Require Import base list.
Import ListNotations.

(** ** JavaScript strings *)

Module JsString.

Definition code_unit := N.
Definition jsstring := list code_unit.

(** WhiteSpace and LineTerminator code points of ECMAScript, the set
    [String.prototype.trim] strips. All of them lie in the BMP, so the
    test is per code unit. *)
Definition is_white_space (c : code_unit) : bool :=
  ((9 <=? c) && (c <=? 13)              (* TAB LF VT FF CR *)
   || (c =? 32)                         (* SP *)
   || (c =? 160)                        (* NBSP *)
   || (c =? 5760)                       (* U+1680 *)
   || ((8192 <=? c) && (c <=? 8202))    (* U+2000 .. U+200A *)
   || (c =? 8232) || (c =? 8233)        (* LS PS *)
   || (c =? 8239) || (c =? 8287)        (* U+202F U+205F *)
   || (c =? 12288)                      (* U+3000 *)
   || (c =? 65279))%N.                  (* ZWNBSP *)

Fixpoint trimStart (s : jsstring) : jsstring :=
  match s with
  | [] => []
  | c :: s' => if is_white_space c then trimStart s' else s
  end.

Definition trimEnd (s : jsstring) : jsstring := rev (trimStart (rev s)).

Definition trim (s : jsstring) : jsstring := trimEnd (trimStart s).

(** ToBoolean on a string: only the empty string is falsy. *)
Definition truthy (s : jsstring) : bool :=
  match s with [] => false | _ :: _ => true end.

(** An ASCII literal as a JavaScript string. *)
Definition lit (s : string) : jsstring :=
  map (fun a => N_of_ascii a) (list_ascii_of_string s).

(** ToString(undefined), what [prev + text] appends when [text] is
    undefined. *)
Definition undefined_text : jsstring := lit "undefined".

End JsString.
Import JsString.

Arguments trim : simpl never.

(** ** Host objects *)

Inductive Language := en_US | th_TH.

Record MediaStream := { stream_id : nat; getTracks : list nat }.

Inductive AudioContextState := suspended | running | closed.

Record AudioContext := { context_id : nat; state : AudioContextState }.

Definition ScriptProcessorNode := nat.
Definition LiveSession := nat.

Definition is_closed (st : AudioContextState) : bool :=
  match st with closed => true | _ => false end.

(** ** Encoded audio frames *)

Record Blob := { data : list Z; mimeType : string }.

(** ** Observable effects, in program order *)

Inductive Effect :=
| SessionClose (s : LiveSession)
| TrackStop (track : nat)
| NodeDisconnect (p : ScriptProcessorNode)
| ContextClose (c : AudioContext)
| ConsoleError (label : string)
| Alert (message : string)
| GetUserMedia
| Connect (model systemInstruction : string)
| SendRealtimeInput (s : LiveSession) (media : Blob).

(** ** Exceptions *)

Inductive JsError :=
| TypeError
| Error (message : string)
| HostError (message : string).

Inductive Completion (A : Type) :=
| Normal (a : A)
| Throw (e : JsError).
Arguments Normal {A} a.
Arguments Throw {A} e.

(** ** One invocation of [startRecording]

    The locals [stream], [context] and [sessionPromise] live in the
    closure of the invocation and are shared by its callbacks. *)

Inductive PromiseState :=
| Pending
| Fulfilled (s : LiveSession)
| Rejected (e : JsError).

Record Invocation := {
  (* [language] as captured by the [useCallback] closure *)
  captured_language : Language;
  (* suspended at [await navigator.mediaDevices.getUserMedia(...)] *)
  awaiting_getUserMedia : bool;
  stream : option MediaStream;
  context : option AudioContext;
  (* [None] until [ai.live.connect] has been called *)
  sessionPromise : option PromiseState;
  (* the [then] reactions registered by [onaudioprocess] while the promise
     is pending, oldest first; each holds the frame it will send *)
  reactions : list Blob;
  (* [scriptProcessor.onaudioprocess] has been assigned *)
  onaudioprocess_set : bool
}.

Definition with_reactions (q : list Blob) (inv : Invocation) : Invocation :=
  {| captured_language := captured_language inv;
     awaiting_getUserMedia := awaiting_getUserMedia inv;
     stream := stream inv; context := context inv;
     sessionPromise := sessionPromise inv; reactions := q;
     onaudioprocess_set := onaudioprocess_set inv |}.

Definition with_onaudioprocess_set (b : bool) (inv : Invocation) : Invocation :=
  {| captured_language := captured_language inv;
     awaiting_getUserMedia := awaiting_getUserMedia inv;
     stream := stream inv; context := context inv;
     sessionPromise := sessionPromise inv; reactions := reactions inv;
     onaudioprocess_set := b |}.

Definition with_awaiting_getUserMedia (b : bool) (inv : Invocation) : Invocation :=
  {| captured_language := captured_language inv;
     awaiting_getUserMedia := b;
     stream := stream inv; context := context inv;
     sessionPromise := sessionPromise inv; reactions := reactions inv;
     onaudioprocess_set := onaudioprocess_set inv |}.

Definition with_sessionPromise (p : option PromiseState) (inv : Invocation) : Invocation :=
  {| captured_language := captured_language inv;
     awaiting_getUserMedia := awaiting_getUserMedia inv;
     stream := stream inv; context := context inv;
     sessionPromise := p; reactions := reactions inv;
     onaudioprocess_set := onaudioprocess_set inv |}.

Definition with_locals (s : MediaStream) (c : AudioContext) (inv : Invocation) : Invocation :=
  {| captured_language := captured_language inv;
     awaiting_getUserMedia := awaiting_getUserMedia inv;
     stream := Some s; context := Some c;
     sessionPromise := sessionPromise inv; reactions := reactions inv;
     onaudioprocess_set := onaudioprocess_set inv |}.

(** ** The component *)

Record World := {
  (* useState *)
  isRecording : bool;
  isConnecting : bool;
  language : Language;
  transcriptHistory : list jsstring;
  currentTranscript : jsstring;
  (* useRef *)
  sessionRef : option LiveSession;
  streamRef : option MediaStream;
  audioContextRef : option AudioContext;
  scriptProcessorRef : option ScriptProcessorNode;
  (* process.env.API_KEY *)
  API_KEY : option jsstring;
  (* the invocations of startRecording so far, by index *)
  invocations : list Invocation;
  (* what the host has observed *)
  trace : list Effect
}.

Definition with_isRecording (b : bool) (w : World) : World :=
  {| isRecording := b; isConnecting := isConnecting w; language := language w;
     transcriptHistory := transcriptHistory w;
     currentTranscript := currentTranscript w; sessionRef := sessionRef w;
     streamRef := streamRef w; audioContextRef := audioContextRef w;
     scriptProcessorRef := scriptProcessorRef w; API_KEY := API_KEY w;
     invocations := invocations w; trace := trace w |}.

Definition with_isConnecting (b : bool) (w : World) : World :=
  {| isRecording := isRecording w; isConnecting := b; language := language w;
     transcriptHistory := transcriptHistory w;
     currentTranscript := currentTranscript w; sessionRef := sessionRef w;
     streamRef := streamRef w; audioContextRef := audioContextRef w;
     scriptProcessorRef := scriptProcessorRef w; API_KEY := API_KEY w;
     invocations := invocations w; trace := trace w |}.

Definition with_language (l : Language) (w : World) : World :=
  {| isRecording := isRecording w; isConnecting := isConnecting w; language := l;
     transcriptHistory := transcriptHistory w;
     currentTranscript := currentTranscript w; sessionRef := sessionRef w;
     streamRef := streamRef w; audioContextRef := audioContextRef w;
     scriptProcessorRef := scriptProcessorRef w; API_KEY := API_KEY w;
     invocations := invocations w; trace := trace w |}.

Definition with_transcriptHistory (h : list jsstring) (w : World) : World :=
  {| isRecording := isRecording w; isConnecting := isConnecting w;
     language := language w; transcriptHistory := h;
     currentTranscript := currentTranscript w; sessionRef := sessionRef w;
     streamRef := streamRef w; audioContextRef := audioContextRef w;
     scriptProcessorRef := scriptProcessorRef w; API_KEY := API_KEY w;
     invocations := invocations w; trace := trace w |}.

Definition with_currentTranscript (c : jsstring) (w : World) : World :=
  {| isRecording := isRecording w; isConnecting := isConnecting w;
     language := language w; transcriptHistory := transcriptHistory w;
     currentTranscript := c; sessionRef := sessionRef w;
     streamRef := streamRef w; audioContextRef := audioContextRef w;
     scriptProcessorRef := scriptProcessorRef w; API_KEY := API_KEY w;
     invocations := invocations w; trace := trace w |}.

Definition with_sessionRef (r : option LiveSession) (w : World) : World :=
  {| isRecording := isRecording w; isConnecting := isConnecting w;
     language := language w; transcriptHistory := transcriptHistory w;
     currentTranscript := currentTranscript w; sessionRef := r;
     streamRef := streamRef w; audioContextRef := audioContextRef w;
     scriptProcessorRef := scriptProcessorRef w; API_KEY := API_KEY w;
     invocations := invocations w; trace := trace w |}.

Definition with_streamRef (r : option MediaStream) (w : World) : World :=
  {| isRecording := isRecording w; isConnecting := isConnecting w;
     language := language w; transcriptHistory := transcriptHistory w;
     currentTranscript := currentTranscript w; sessionRef := sessionRef w;
     streamRef := r; audioContextRef := audioContextRef w;
     scriptProcessorRef := scriptProcessorRef w; API_KEY := API_KEY w;
     invocations := invocations w; trace := trace w |}.

Definition with_audioContextRef (r : option AudioContext) (w : World) : World :=
  {| isRecording := isRecording w; isConnecting := isConnecting w;
     language := language w; transcriptHistory := transcriptHistory w;
     currentTranscript := currentTranscript w; sessionRef := sessionRef w;
     streamRef := streamRef w; audioContextRef := r;
     scriptProcessorRef := scriptProcessorRef w; API_KEY := API_KEY w;
     invocations := invocations w; trace := trace w |}.

Definition with_scriptProcessorRef (r : option ScriptProcessorNode) (w : World) : World :=
  {| isRecording := isRecording w; isConnecting := isConnecting w;
     language := language w; transcriptHistory := transcriptHistory w;
     currentTranscript := currentTranscript w; sessionRef := sessionRef w;
     streamRef := streamRef w; audioContextRef := audioContextRef w;
     scriptProcessorRef := r; API_KEY := API_KEY w;
     invocations := invocations w; trace := trace w |}.

Definition with_invocations (l : list Invocation) (w : World) : World :=
  {| isRecording := isRecording w; isConnecting := isConnecting w;
     language := language w; transcriptHistory := transcriptHistory w;
     currentTranscript := currentTranscript w; sessionRef := sessionRef w;
     streamRef := streamRef w; audioContextRef := audioContextRef w;
     scriptProcessorRef := scriptProcessorRef w; API_KEY := API_KEY w;
     invocations := l; trace := trace w |}.

Definition with_trace (t : list Effect) (w : World) : World :=
  {| isRecording := isRecording w; isConnecting := isConnecting w;
     language := language w; transcriptHistory := transcriptHistory w;
     currentTranscript := currentTranscript w; sessionRef := sessionRef w;
     streamRef := streamRef w; audioContextRef := audioContextRef w;
     scriptProcessorRef := scriptProcessorRef w; API_KEY := API_KEY w;
     invocations := invocations w; trace := t |}.

(** ** The handler monad *)

Definition M (A : Type) : Type := World -> Completion A * World.

Definition ret {A} (a : A) : M A := fun w => (Normal a, w).

Definition bind {A B} (m : M A) (k : A -> M B) : M B :=
  fun w =>
    match m w with
    | (Normal a, w') => k a w'
    | (Throw e, w') => (Throw e, w')
    end.

Definition throw {A} (e : JsError) : M A := fun w => (Throw e, w).

Definition try_catch {A} (body : M A) (handler : JsError -> M A) : M A :=
  fun w =>
    match body w with
    | (Normal a, w') => (Normal a, w')
    | (Throw e, w') => handler e w'
    end.

Definition gets {A} (f : World -> A) : M A := fun w => (Normal (f w), w).

Definition modify (f : World -> World) : M unit := fun w => (Normal tt, f w).

Definition emit (e : Effect) : M unit :=
  modify (fun w => with_trace (trace w ++ [e]) w).

Definition completion {A} (m : M A) (w : World) : Completion A := fst (m w).
Definition exec {A} (m : M A) (w : World) : World := snd (m w).

Declare Scope js_scope.
Delimit Scope js_scope with js.
Notation "x <- m ;; k" := (bind m (fun x => k))
  (at level 100, m at next level, right associativity) : js_scope.
Notation "m ;; k" := (bind m (fun _ => k))
  (at level 100, right associativity) : js_scope.
Local Open Scope js_scope.

(** [ref.current.method(...)]: a property access on [null] throws. *)
Definition current {A} (ref : World -> option A) : M A :=
  r <- gets ref ;;
  match r with
  | Some x => ret x
  | None => throw TypeError
  end.

(** ToBoolean on an object reference. *)
Definition non_null {A} (r : option A) : bool :=
  match r with Some _ => true | None => false end.

Fixpoint forEach {A} (l : list A) (f : A -> M unit) : M unit :=
  match l with
  | [] => ret tt
  | x :: l' => f x ;; forEach l' f
  end.

Definition when (c : bool) (m : M unit) : M unit := if c then m else ret tt.

(** State setters, with a value and with an updater. *)
Definition setIsRecording (b : bool) : M unit := modify (with_isRecording b).
Definition setIsConnecting (b : bool) : M unit := modify (with_isConnecting b).
Definition setLanguage (l : Language) : M unit := modify (with_language l).
Definition setTranscriptHistory (h : list jsstring) : M unit :=
  modify (with_transcriptHistory h).
Definition setCurrentTranscript (c : jsstring) : M unit :=
  modify (with_currentTranscript c).

Definition setTranscriptHistory_by (f : list jsstring -> M (list jsstring)) : M unit :=
  h <- gets transcriptHistory ;;
  h' <- f h ;;
  setTranscriptHistory h'.

Definition setCurrentTranscript_by (f : jsstring -> M jsstring) : M unit :=
  prev <- gets currentTranscript ;;
  next <- f prev ;;
  setCurrentTranscript next.

(** ** [stopRecording] (lines 19-44) *)

Definition stopRecording : M unit :=
  (c <- gets sessionRef ;;
   when (non_null c)
     (session <- current sessionRef ;;
      emit (SessionClose session) ;;
      modify (with_sessionRef None))) ;;
  (c <- gets streamRef ;;
   when (non_null c)
     (s <- current streamRef ;;
      forEach (getTracks s) (fun track => emit (TrackStop track)) ;;
      modify (with_streamRef None))) ;;
  (c <- gets scriptProcessorRef ;;
   when (non_null c)
     (p <- current scriptProcessorRef ;;
      emit (NodeDisconnect p) ;;
      modify (with_scriptProcessorRef None))) ;;
  (c <- gets audioContextRef ;;
   open <- (if non_null c
            then (a <- current audioContextRef ;; ret (negb (is_closed (state a))))
            else ret false) ;;
   when open
     (a <- current audioContextRef ;;
      emit (ContextClose a) ;;
      modify (with_audioContextRef None))) ;;
  setIsRecording false ;;
  setIsConnecting false ;;
  setCurrentTranscript_by (fun prev =>
    when (truthy (trim prev))
      (setTranscriptHistory_by (fun history => ret (history ++ [trim prev]))) ;;
    ret []).

(** ** [createBlob] of [./utils/audio] *)

Module AudioFrameEncoder.

(** Modelled from the spec: the module [./utils/audio] that exports
    [createBlob] is not among the sources. Section 4.1 has each sample
    converted by linear scaling, [round(sample * 32767)], and clamped to
    the signed 16-bit range so that values at or beyond +-1.0 do not
    overflow; the frame is the little-endian 16-bit signed PCM of the
    result with a fixed MIME-type tag.

    Samples are 32-bit floats. Every finite one is a rational, and its
    product with 32767 is exact in double precision, so the arithmetic is
    done in [Q]. *)

(** Modelled from the spec: [round], to the nearest integer, ties
    upwards as [Math.round] has them. *)
Definition round (x : Q) : Z := Qfloor (x + (1 # 2))%Q.

(** Modelled from the spec: the clamp to the symmetric 16-bit range. *)
Definition clamp (z : Z) : Z := Z.max (-32767) (Z.min 32767 z).

(** Modelled from the spec: what a signed 16-bit slot holds after a
    store of [z], which wraps modulo 2^16. *)
Definition int16 (z : Z) : Z := ((z + 32768) mod 65536 - 32768)%Z.

(** Modelled from the spec: one sample, scaled, rounded, clamped and
    stored. *)
Definition encode_sample (sample : Q) : Z :=
  int16 (clamp (round (sample * 32767)%Q)).

(** Modelled from the spec: the little-endian bytes of a signed 16-bit
    value. *)
Definition le16 (v : Z) : list Z :=
  let u := (v mod 65536)%Z in [(u mod 256)%Z; (u / 256)%Z].

(** Modelled from the spec: the fixed MIME-type tag. *)
Definition pcm_mime : string := "audio/pcm;rate=16000".

(** Modelled from the spec: [createBlob], the encoder of a buffer. *)
Definition createBlob (samples : list Q) : Blob :=
  {| data := flat_map (fun x => le16 (encode_sample x)) samples;
     mimeType := pcm_mime |}.

End AudioFrameEncoder.
Import AudioFrameEncoder.

(** ** [startRecording] (lines 46-114)

    The function body up to its first [await], and its two resumptions.
    The [catch] block is shared. *)

Definition languageName (l : Language) : string :=
  match l with en_US => "English" | th_TH => "Thai" end.

Definition systemInstruction (l : Language) : string :=
  String.append "You are a world-class transcription service. The user will speak in "
    (String.append (languageName l)
       ". Transcribe their speech accurately in real-time. Do not break up the transcription based on pauses; provide a single, continuous transcript.").

Definition model : string := "gemini-2.5-flash-native-audio-preview-09-2025".

Definition could_not_start : string :=
  "Could not start recording. Please ensure you have given microphone permissions and have a valid API key.".

Definition start_catch (error : JsError) : M unit :=
  emit (ConsoleError "Failed to start recording:") ;;
  emit (Alert could_not_start) ;;
  stopRecording.

(** [await p]: resume with the value, or throw the rejection reason. *)
Definition await {A} (settled : Completion A) : M A :=
  match settled with
  | Normal a => ret a
  | Throw e => throw e
  end.

Definition new_invocation (inv : Invocation) : M nat :=
  fun w => (Normal (length (invocations w)),
            with_invocations (invocations w ++ [inv]) w).

Definition update_invocation (i : nat) (f : Invocation -> Invocation) : M unit :=
  modify (fun w => with_invocations (alter f i (invocations w)) w).

(** ToBoolean on [process.env.API_KEY]: undefined and the empty string
    are falsy. *)
Definition key_present (k : option jsstring) : bool :=
  match k with Some s => truthy s | None => false end.

Definition startRecording : M unit :=
  setIsConnecting true ;;
  setCurrentTranscript [] ;;
  setTranscriptHistory [] ;;
  try_catch
    (key <- gets API_KEY ;;
     when (negb (key_present key))
       (throw (Error "API_KEY environment variable not set")) ;;
     emit GetUserMedia ;;
     lang <- gets language ;;
     _ <- new_invocation
            {| captured_language := lang; awaiting_getUserMedia := true;
               stream := None; context := None; sessionPromise := None;
               reactions := []; onaudioprocess_set := false |} ;;
     ret tt)
    start_catch.

(** [getUserMedia] has settled; [construct] is what
    [new AudioContext({sampleRate: 16000})] does. Runs up to
    [await sessionPromise]; [new GoogleGenAI] has no effect of its own,
    [ai.live.connect] is the request the host sees. *)
Definition resume_getUserMedia (i : nat) (lang : Language)
    (settled : Completion MediaStream) (construct : Completion AudioContext) : M unit :=
  update_invocation i (with_awaiting_getUserMedia false) ;;
  try_catch
    (stream <- await settled ;;
     modify (with_streamRef (Some stream)) ;;
     context <- await construct ;;
     modify (with_audioContextRef (Some context)) ;;
     emit (Connect model (systemInstruction lang)) ;;
     update_invocation i (fun inv =>
       with_sessionPromise (Some Pending) (with_locals stream context inv)))
    start_catch.

(** [sessionPromise] has settled. Its reactions run in the order in which
    they were registered: the [await] of [startRecording] came first, at
    the call of [connect]; the frames queued by [onaudioprocess] follow.
    Reactions without a rejection handler are skipped on rejection. *)
Definition settle_sessionPromise (i : nat) (queued : list Blob)
    (settled : Completion LiveSession) : M unit :=
  update_invocation i (fun inv =>
    with_reactions []
      (with_sessionPromise
         (Some match settled with
               | Normal s => Fulfilled s
               | Throw e => Rejected e
               end) inv)) ;;
  try_catch
    (session <- await settled ;;
     modify (with_sessionRef (Some session)))
    start_catch ;;
  match settled with
  | Normal session =>
      forEach queued (fun pcmBlob => emit (SendRealtimeInput session pcmBlob))
  | Throw _ => ret tt
  end.

(** ** The callbacks of [ai.live.connect] (lines 68-100) *)

(** What the Web Audio calls of [onopen] do in the host, in the order of
    the calls: the two constructions, [source.connect(scriptProcessor)]
    and [scriptProcessor.connect(context.destination)]. *)
Record OpenHost := {
  createMediaStreamSource : Completion nat;
  createScriptProcessor : Completion ScriptProcessorNode;
  connect_processor : Completion unit;
  connect_destination : Completion unit
}.

Definition onopen (i : nat) (host : OpenHost) : M unit :=
  source <- await (createMediaStreamSource host) ;;
  scriptProcessor <- await (createScriptProcessor host) ;;
  modify (with_scriptProcessorRef (Some scriptProcessor)) ;;
  update_invocation i (with_onaudioprocess_set true) ;;
  await (connect_processor host) ;;
  await (connect_destination host) ;;
  setIsConnecting false ;;
  setIsRecording true.

(** [scriptProcessor.onaudioprocess], given the state in which it finds
    the [sessionPromise] of its closure. A reaction registered on a
    fulfilled promise runs before the next event. *)
Definition onaudioprocess (i : nat) (p : PromiseState) (inputData : list Q) : M unit :=
  let pcmBlob := createBlob inputData in
  match p with
  | Pending =>
      update_invocation i (fun inv => with_reactions (reactions inv ++ [pcmBlob]) inv)
  | Fulfilled session => emit (SendRealtimeInput session pcmBlob)
  | Rejected _ => ret tt
  end.

(** The SDK declares [text] optional. *)
Record Transcription := { text : option jsstring }.
Record LiveServerContent := { inputTranscription : option Transcription }.
Record LiveServerMessage := { serverContent : option LiveServerContent }.

(** [prev + text] *)
Definition concat_text (prev : jsstring) (text : option jsstring) : jsstring :=
  prev ++ match text with Some t => t | None => undefined_text end.

Definition onmessage (message : LiveServerMessage) : M unit :=
  match serverContent message with
  | Some content =>
      match inputTranscription content with
      | Some transcription =>
          let text := text transcription in
          setCurrentTranscript_by (fun prev => ret (concat_text prev text))
      | None => ret tt
      end
  | None => ret tt
  end.

Definition api_error (message : string) : string :=
  String.append "An API error occurred: "
    (String.append message ". Please try again.").

Definition onerror (e_message : string) : M unit :=
  emit (ConsoleError "API Error:") ;;
  emit (Alert (api_error e_message)) ;;
  stopRecording.

Definition onclose : M unit := stopRecording.

(** ** [handleToggleRecording] (lines 116-122) *)

Definition handleToggleRecording : M unit :=
  recording <- gets isRecording ;;
  connecting <- gets isConnecting ;;
  if recording || connecting then stopRecording else startRecording.

(** ** The event loop

    Every callback runs to completion before the next one. An event of
    invocation [i] is delivered only when the program has asked for it:
    a settlement when [i] is suspended on that promise, a session
    callback once [connect] was called, an audio buffer once
    [onaudioprocess] was assigned. [Unmount] is the effect cleanup of
    lines 125-129, [LanguageSelected] the [onChange] of the selector. An
    exception that escapes a callback is reported by the host and the
    loop goes on. *)

Inductive Event :=
| Toggle
| Unmount
| LanguageSelected (l : Language)
| GetUserMediaSettled (i : nat) (settled : Completion MediaStream)
    (construct : Completion AudioContext)
| Opened (i : nat) (host : OpenHost)
| SessionSettled (i : nat) (settled : Completion LiveSession)
| Message (i : nat) (message : LiveServerMessage)
| Errored (i : nat) (e_message : string)
| Closed (i : nat)
| AudioProcess (i : nat) (inputData : list Q).

Definition connect_called (inv : Invocation) : bool :=
  non_null (sessionPromise inv).

Definition on_invocation (w : World) (i : nat) (k : Invocation -> M unit) : M unit :=
  match invocations w !! i with
  | Some inv => k inv
  | None => ret tt
  end.

Definition dispatch (w : World) (ev : Event) : M unit :=
  match ev with
  | Toggle => handleToggleRecording
  | Unmount => stopRecording
  | LanguageSelected l => setLanguage l
  | GetUserMediaSettled i settled construct =>
      on_invocation w i (fun inv =>
        when (awaiting_getUserMedia inv)
          (resume_getUserMedia i (captured_language inv) settled construct))
  | Opened i host =>
      on_invocation w i (fun inv => when (connect_called inv) (onopen i host))
  | SessionSettled i settled =>
      on_invocation w i (fun inv =>
        match sessionPromise inv with
        | Some Pending => settle_sessionPromise i (reactions inv) settled
        | _ => ret tt
        end)
  | Message i message =>
      on_invocation w i (fun inv => when (connect_called inv) (onmessage message))
  | Errored i e_message =>
      on_invocation w i (fun inv => when (connect_called inv) (onerror e_message))
  | Closed i =>
      on_invocation w i (fun inv => when (connect_called inv) onclose)
  | AudioProcess i inputData =>
      on_invocation w i (fun inv =>
        match onaudioprocess_set inv, sessionPromise inv with
        | true, Some p => onaudioprocess i p inputData
        | _, _ => ret tt
        end)
  end.

Definition step (w : World) (ev : Event) : World := exec (dispatch w ev) w.

Definition run (w : World) (evs : list Event) : World := fold_left step evs w.

(** The component as mounted. *)
Definition mount (key : option jsstring) : World :=
  {| isRecording := false; isConnecting := false; language := en_US;
     transcriptHistory := []; currentTranscript := [];
     sessionRef := None; streamRef := None; audioContextRef := None;
     scriptProcessorRef := None; API_KEY := key;
     invocations := []; trace := [] |}.

(** Idle: neither recording nor connecting. *)
Definition idle (w : World) : bool :=
  negb (isRecording w) && negb (isConnecting w).

Definition server_text (t : jsstring) : LiveServerMessage :=
  {| serverContent := Some {| inputTranscription := Some {| text := Some t |} |} |}.

(** ** What [stopRecording] amounts to

    The effects it has on the host, one group per owned resource, and the
    entry it adds to the history. *)

Definition released (w : World) : list Effect :=
  match sessionRef w with Some s => [SessionClose s] | None => [] end
  ++ match streamRef w with Some s => map TrackStop (getTracks s) | None => [] end
  ++ match scriptProcessorRef w with Some p => [NodeDisconnect p] | None => [] end
  ++ match audioContextRef w with
     | Some a => if is_closed (state a) then [] else [ContextClose a]
     | None => []
     end.

Definition committed (current : jsstring) : list jsstring :=
  if truthy (trim current) then [trim current] else [].

Definition stopped (w : World) : World :=
  {| isRecording := false; isConnecting := false; language := language w;
     transcriptHistory := transcriptHistory w ++ committed (currentTranscript w);
     currentTranscript := [];
     sessionRef := None; streamRef := None;
     audioContextRef :=
       match audioContextRef w with
       | Some a => if is_closed (state a) then Some a else None
       | None => None
       end;
     scriptProcessorRef := None; API_KEY := API_KEY w;
     invocations := invocations w; trace := trace w ++ released w |}.

(** The controller at rest: idle, nothing held, nothing in progress. *)
Definition at_rest (w : World) : World :=
  {| isRecording := false; isConnecting := false; language := language w;
     transcriptHistory := transcriptHistory w; currentTranscript := [];
     sessionRef := None; streamRef := None; audioContextRef := None;
     scriptProcessorRef := None; API_KEY := API_KEY w;
     invocations := invocations w; trace := trace w |}.


(** A run of [append] calls: one message per delta. *)
Definition append_all (deltas : list jsstring) (w : World) : World :=
  fold_left (fun w d => exec (onmessage (server_text d)) w) deltas w.

(** ** What [startRecording] amounts to

    The states an invocation passes through, as functions of the state
    in which it was called. *)

(** After the three setters at the head of [startRecording]. *)
Definition reset (w : World) : World :=
  with_transcriptHistory [] (with_currentTranscript [] (with_isConnecting true w)).

Definition fresh (lang : Language) : Invocation :=
  {| captured_language := lang; awaiting_getUserMedia := true;
     stream := None; context := None; sessionPromise := None;
     reactions := []; onaudioprocess_set := false |}.

(** Suspended at [getUserMedia]. *)
Definition started (w : World) : World :=
  with_invocations (invocations w ++ [fresh (language w)])
    (with_trace (trace w ++ [GetUserMedia]) (reset w)).

(** After the [catch] block, entered in [w]. *)
Definition caught (w : World) : World :=
  stopped (with_trace
    (trace w ++ [ConsoleError "Failed to start recording:"; Alert could_not_start]) w).

Definition device_settled (w : World) : World :=
  with_invocations
    (invocations w ++ [with_awaiting_getUserMedia false (fresh (language w))])
    (started w).

(** Suspended at [sessionPromise]. *)
Definition connecting (w : World) (s : MediaStream) (c : AudioContext) : World :=
  with_invocations
    (invocations w
     ++ [with_sessionPromise (Some Pending)
           (with_locals s c (with_awaiting_getUserMedia false (fresh (language w))))])
    (with_trace
       (trace w ++ [GetUserMedia; Connect model (systemInstruction (language w))])
       (with_audioContextRef (Some c) (with_streamRef (Some s) (reset w)))).

Definition session_settled (w : World) (s : MediaStream) (c : AudioContext)
    (p : PromiseState) : World :=
  with_invocations
    (invocations w
     ++ [with_sessionPromise (Some p)
           (with_locals s c (with_awaiting_getUserMedia false (fresh (language w))))])
    (connecting w s c).





(** Effects that release a resource, as opposed to requests and
    notifications. *)
Definition is_release (e : Effect) : bool :=
  match e with
  | SessionClose _ | TrackStop _ | NodeDisconnect _ | ContextClose _ => true
  | _ => false
  end.

(** ** Sample runs *)

Module Sample.

Definition key : option jsstring := Some (lit "secret").
Definition microphone : MediaStream := {| stream_id := 1; getTracks := [0] |}.
Definition audio : AudioContext := {| context_id := 2; state := running |}.
Definition web_audio : OpenHost :=
  {| createMediaStreamSource := Normal 3; createScriptProcessor := Normal 4;
     connect_processor := Normal tt; connect_destination := Normal tt |}.
Definition denied : JsError := HostError "NotAllowedError".


(** Streaming, with text in progress. *)
Definition streaming : World :=
  run (mount key)
    [Toggle; GetUserMediaSettled 0 (Normal microphone) (Normal audio);
     Opened 0 web_audio; SessionSettled 0 (Normal 5);
     Message 0 (server_text (lit "hello"))].

(** Open, with the session promise still pending and one frame queued. *)
Definition opening : World :=
  run (mount key)
    [Toggle; GetUserMediaSettled 0 (Normal microphone) (Normal audio);
     Opened 0 web_audio; AudioProcess 0 [1 # 2; -1 # 4]%Q].

End Sample.

(** ** Frames and the open event *)

(** Invocation [i] has no frame handler and no frame queued. *)
Definition no_frames (inv : Invocation) : bool :=
  negb (onaudioprocess_set inv)
  && match reactions inv with [] => true | _ :: _ => false end.

Definition unopened (w : World) (i : nat) : bool :=
  match invocations w !! i with
  | Some inv => no_frames inv
  | None => true
  end.

Definition is_open_of (i : nat) (ev : Event) : bool :=
  match ev with Opened j _ => Nat.eqb j i | _ => false end.

Definition is_open (ev : Event) : bool :=
  match ev with Opened _ _ => true | _ => false end.

(** The frames handed to [sendRealtimeInput], in order. *)
Definition sends (t : list Effect) : list (LiveSession * Blob) :=
  flat_map (fun e => match e with
                     | SendRealtimeInput s b => [(s, b)]
                     | _ => []
                     end) t.

(** What a step does to the invocation store: nothing, an update in
    place, or one fresh invocation at the end. *)
Inductive StoreChange (l : list Invocation) : list Invocation -> Prop :=
| Unchanged : StoreChange l l
| Altered (f : Invocation -> Invocation) (j : nat) :
    (forall inv, l !! j = Some inv -> no_frames inv = true -> no_frames (f inv) = true) ->
    StoreChange l (alter f j l)
| Begun (lang : Language) : StoreChange l (l ++ [fresh lang]).

(** ** The view (lines 131-181)

    What the component renders from its state: the selector, the
    transcript pane, the record button and the status line. *)

Inductive Icon := MicIcon | StopIcon.

Inductive Pane :=
| Placeholder
| Transcript (joined separator current : jsstring) (cursor : bool).

Record View := {
  select_value : Language;
  select_disabled : bool;
  pane : Pane;
  button_disabled : bool;
  button_icon : Icon;
  status : string
}.

(** [Array.prototype.join] on strings. *)
Definition join (sep : jsstring) (l : list jsstring) : jsstring :=
  match l with
  | [] => []
  | x :: l' => x ++ flat_map (fun y => sep ++ y) l'
  end.

Definition non_empty {A} (l : list A) : bool :=
  match l with [] => false | _ :: _ => true end.

Definition render (w : World) : View :=
  {| select_value := language w;
     select_disabled := isRecording w || isConnecting w;
     pane :=
       if negb (non_empty (transcriptHistory w))
          && negb (truthy (currentTranscript w))
          && negb (isRecording w) && negb (isConnecting w)
       then Placeholder
       else Transcript
              (join (lit " ") (transcriptHistory w))
              (if non_empty (transcriptHistory w) && truthy (currentTranscript w)
               then lit " " else [])
              (currentTranscript w)
              (isRecording w);
     button_disabled := isConnecting w;
     button_icon := if isRecording w then StopIcon else MicIcon;
     status :=
       if isConnecting w then "Connecting..."
       else if isRecording w then "Listening..."
       else "Ready to record" |}.

(** The transcript as it reads on screen, without the cursor. *)
Definition pane_text (p : Pane) : jsstring :=
  match p with
  | Placeholder => []
  | Transcript joined separator current _ => joined ++ separator ++ current
  end.

Definition shows_cursor (p : Pane) : bool :=
  match p with
  | Placeholder => false
  | Transcript _ _ _ cursor => cursor
  end.

(** ** What a step does to the state on screen

    The flags, the transcript and the processor ref after a step, in
    terms of what they were: untouched, the stop path, the head of
    [startRecording] (with or without a credential), [onopen] (to its
    end, or up to a [connect] that throws), or an appended delta. *)
Inductive Visible (w : World) (ev : Event) (w' : World) : Prop :=
| Untouched :
    isRecording w' = isRecording w -> isConnecting w' = isConnecting w ->
    transcriptHistory w' = transcriptHistory w ->
    currentTranscript w' = currentTranscript w ->
    scriptProcessorRef w' = scriptProcessorRef w ->
    Visible w ev w'
| Stopped :
    isRecording w' = false -> isConnecting w' = false ->
    transcriptHistory w' = transcriptHistory w ++ committed (currentTranscript w) ->
    currentTranscript w' = [] ->
    scriptProcessorRef w' = None ->
    Visible w ev w'
| Started :
    ev = Toggle -> idle w = true ->
    isRecording w' = false -> isConnecting w' = true ->
    transcriptHistory w' = [] -> currentTranscript w' = [] ->
    scriptProcessorRef w' = scriptProcessorRef w ->
    Visible w ev w'
| StartRefused :
    ev = Toggle -> idle w = true ->
    isRecording w' = false -> isConnecting w' = false ->
    transcriptHistory w' = [] -> currentTranscript w' = [] ->
    scriptProcessorRef w' = None ->
    Visible w ev w'
| Wired (p : ScriptProcessorNode) :
    isRecording w' = true -> isConnecting w' = false ->
    transcriptHistory w' = transcriptHistory w ->
    currentTranscript w' = currentTranscript w ->
    scriptProcessorRef w' = Some p ->
    Visible w ev w'
| Attached (p : ScriptProcessorNode) :
    isRecording w' = isRecording w -> isConnecting w' = isConnecting w ->
    transcriptHistory w' = transcriptHistory w ->
    currentTranscript w' = currentTranscript w ->
    scriptProcessorRef w' = Some p ->
    Visible w ev w'
| Appended (text : option jsstring) :
    isRecording w' = isRecording w -> isConnecting w' = isConnecting w ->
    transcriptHistory w' = transcriptHistory w ->
    currentTranscript w' = concat_text (currentTranscript w) text ->
    scriptProcessorRef w' = scriptProcessorRef w ->
    Visible w ev w'.

(** A history as [stopRecording] builds it: no entry is empty and none
    has white space at either end. *)
Definition clean_entry (s : jsstring) : bool :=
  truthy s && negb (match s with c :: _ => is_white_space c | [] => false end)
  && negb (match rev s with c :: _ => is_white_space c | [] => false end).

(** Never recording and connecting at once, and a processor in its ref
    while recording. *)
Definition coherent (w : World) : bool :=
  negb (isRecording w && isConnecting w)
  && (negb (isRecording w) || non_null (scriptProcessorRef w)).

(** A Web Audio call of [onopen] throws. *)
Definition is_throw {A} (c : Completion A) : bool :=
  match c with Throw _ => true | Normal _ => false end.

Definition create_throws (host : OpenHost) : bool :=
  is_throw (createMediaStreamSource host) || is_throw (createScriptProcessor host).

Definition open_throws (host : OpenHost) : bool :=
  create_throws host
  || is_throw (connect_processor host) || is_throw (connect_destination host).

(** * Properties *)

Lemma emit_run (e : Effect) (w : World) :
  emit e w = (Normal tt, with_trace (trace w ++ [e]) w).
Proof. reflexivity. Qed.

Lemma forEach_emit {A} (f : A -> Effect) (l : list A) (w : World) :
  forEach l (fun x => emit (f x)) w
  = (Normal tt, with_trace (trace w ++ map f l) w).
Proof.
  revert w. induction l as [|x l IH]; intros w.
  - destruct w. cbn. by rewrite app_nil_r.
  - cbn [forEach]. unfold bind at 1. rewrite emit_run, IH.
    destruct w. cbn. by rewrite <- app_assoc.
Qed.

(** Symbolic execution of a handler on a world given by its fields. *)
Ltac js_run :=
  repeat (progress (
    cbv beta iota zeta delta
      [bind ret throw try_catch gets modify when non_null current await
       exec completion fst snd key_present
       setIsRecording setIsConnecting setCurrentTranscript
       setTranscriptHistory setCurrentTranscript_by setTranscriptHistory_by
       is_closed negb orb andb state getTracks
       with_sessionRef with_streamRef with_scriptProcessorRef
       with_audioContextRef with_isRecording with_isConnecting
       with_currentTranscript with_transcriptHistory with_trace
       with_invocations with_language
       isRecording isConnecting language transcriptHistory currentTranscript
       sessionRef streamRef audioContextRef scriptProcessorRef API_KEY
       invocations trace];
    rewrite ?emit_run, ?forEach_emit)).

Lemma stopRecording_stopped (w : World) :
  stopRecording w = (Normal tt, stopped w).
Proof.
  destruct w as [rec con lang hist cur ses str ctx proc key invs tr].
  unfold stopRecording, stopped, released, committed.
  destruct ses as [s|], str as [st|], proc as [p|], ctx as [[c [| |]]|];
    js_run; destruct (trim cur) as [|c0 t]; cbn [truthy]; js_run;
    rewrite ?app_nil_r, <- ?app_assoc; reflexivity.
Qed.

Lemma exec_stopRecording (w : World) : exec stopRecording w = stopped w.
Proof. unfold exec. by rewrite stopRecording_stopped. Qed.

Lemma stopped_stopped (w : World) : stopped (stopped w) = stopped w.
Proof.
  destruct w as [rec con lang hist cur ses str ctx proc key invs tr].
  unfold stopped, released. cbn.
  destruct ctx as [[c [| |]]|]; cbn; by rewrite ?app_nil_r.
Qed.

Lemma onerror_run (e_message : string) (w : World) :
  onerror e_message w
  = (Normal tt,
     stopped (with_trace
       (trace w ++ [ConsoleError "API Error:"; Alert (api_error e_message)]) w)).
Proof.
  unfold onerror, bind. rewrite !emit_run, stopRecording_stopped.
  destruct w. cbn. by rewrite <- app_assoc.
Qed.

(** ** Transcript commit *)

(** C1. Every stop or close event commits once: [stopRecording], and with
    it [onclose] and [onerror], which run it, completes normally, leaves
    the in-progress transcript empty, and extends the history by exactly
    the trimmed in-progress transcript when that is non-empty and by
    nothing when it is empty. The close event that answers a stop adds
    nothing more. *)
Theorem commit_once_per_stop (w : World) (e_message : string) :
  let commit (h : M unit) :=
    completion h w = Normal tt
    /\ currentTranscript (exec h w) = []
    /\ transcriptHistory (exec h w)
       = if truthy (trim (currentTranscript w))
         then transcriptHistory w ++ [trim (currentTranscript w)]
         else transcriptHistory w in
  commit stopRecording
  /\ commit onclose
  /\ commit (onerror e_message)
  /\ transcriptHistory (exec onclose (exec stopRecording w))
     = transcriptHistory (exec stopRecording w).
Proof.
  assert (Hc : transcriptHistory w ++ committed (currentTranscript w)
               = if truthy (trim (currentTranscript w))
                 then transcriptHistory w ++ [trim (currentTranscript w)]
                 else transcriptHistory w).
  { unfold committed. destruct (truthy _); [done | by rewrite app_nil_r]. }
  cbn zeta. unfold completion, exec, onclose.
  rewrite !stopRecording_stopped, onerror_run. cbn [fst snd].
  rewrite stopped_stopped, <- Hc.
  repeat split; by destruct w.
Qed.

Lemma append_all_current (deltas : list jsstring) (w : World) :
  append_all deltas w
  = with_currentTranscript (currentTranscript w ++ concat deltas) w.
Proof.
  revert w. induction deltas as [|d deltas IH]; intros w.
  - destruct w. cbn. by rewrite app_nil_r.
  - cbn [append_all fold_left]. fold (append_all deltas). rewrite IH.
    destruct w. cbn. by rewrite <- app_assoc.
Qed.

(** C5. Deltas appended after a commit and followed by one commit: the
    history grows by at most one element; the element is the trimmed
    concatenation of the deltas in arrival order, and nothing is added
    when that is empty. *)
Theorem append_then_commit (w : World) (deltas : list jsstring) :
  let w1 := exec stopRecording w in
  let w2 := exec stopRecording (append_all deltas w1) in
  transcriptHistory w2
  = transcriptHistory w1
    ++ (if truthy (trim (concat deltas)) then [trim (concat deltas)] else [])
  /\ length (transcriptHistory w2) <= S (length (transcriptHistory w1))
  /\ currentTranscript w2 = [].
Proof.
  cbn zeta. rewrite !exec_stopRecording, append_all_current.
  assert (H : transcriptHistory
                (stopped (with_currentTranscript
                   (currentTranscript (stopped w) ++ concat deltas) (stopped w)))
              = transcriptHistory (stopped w) ++ committed (concat deltas))
    by (by destruct w).
  rewrite H. unfold committed. split; [done|]. split; [|done].
  destruct (truthy _); rewrite length_app; cbn; lia.
Qed.

(** ** Stopping *)

(** C2, as the code has it. [stopRecording] never throws, and a second
    call in a row changes nothing, in whatever state the first is made;
    it releases each resource that is held, whether or not the others
    are. Called when idle with nothing held it releases nothing and only
    commits: with no text in progress the state is unchanged, and text
    in progress (a delta that came after the last stop) is cleared and,
    trimmed, appended to the history when it is not blank. *)
Theorem stop_idempotent (w : World) :
  let w1 := exec stopRecording w in
  completion stopRecording w = Normal tt
  /\ completion stopRecording w1 = Normal tt
  /\ exec stopRecording w1 = w1
  /\ (sessionRef w1 = None /\ streamRef w1 = None
      /\ scriptProcessorRef w1 = None
      /\ audioContextRef w1
         = match audioContextRef w with
           | Some a => if is_closed (state a) then Some a else None
           | None => None
           end)
  /\ trace w1 = trace w ++ released w
  /\ exec stopRecording (at_rest w) = at_rest w
  /\ (forall late,
        exec stopRecording (with_currentTranscript late (at_rest w))
        = with_transcriptHistory (transcriptHistory w ++ committed late)
            (at_rest w)).
Proof.
  cbn zeta. unfold completion. rewrite !exec_stopRecording.
  rewrite !stopRecording_stopped, stopped_stopped. cbn [fst].
  repeat match goal with |- _ /\ _ => split end; try reflexivity.
  - destruct w. unfold stopped, at_rest, released. cbn.
    by rewrite !app_nil_r.
  - intros late. rewrite exec_stopRecording.
    destruct w. unfold stopped, at_rest, released. cbn.
    by rewrite !app_nil_r.
Qed.

(** Idle, nothing held, and a delta that arrived after the stop: the
    next stop changes the state, it commits the late text. *)
Lemma stop_from_idle_commits_late_text :
  let w := run Sample.streaming [Toggle; Message 0 (server_text (lit " late "))] in
  idle w = true
  /\ (sessionRef w = None /\ streamRef w = None
      /\ scriptProcessorRef w = None /\ audioContextRef w = None)
  /\ transcriptHistory w = [lit "hello"]
  /\ transcriptHistory (exec stopRecording w) = [lit "hello"; lit "late"]
  /\ exec stopRecording w <> w.
Proof.
  cbn zeta. repeat apply conj; try (vm_compute; reflexivity).
  intros H. apply (f_equal transcriptHistory) in H. vm_compute in H.
  discriminate H.
Qed.

(** ** Remote termination *)


(** ** Starting *)

Lemma start_catch_run (e : JsError) (w : World) :
  start_catch e w = (Normal tt, caught w).
Proof.
  unfold start_catch, caught, bind. rewrite !emit_run, stopRecording_stopped.
  destruct w. cbn. by rewrite <- app_assoc.
Qed.

Lemma startRecording_run (w : World) :
  startRecording w
  = (Normal tt, if key_present (API_KEY w) then started w else caught (reset w)).
Proof.
  unfold startRecording.
  destruct (key_present (API_KEY w)) eqn:Hk;
    destruct w as [rec con lang hist cur ses str ctx proc key invs tr];
    cbn in Hk; unfold try_catch, bind at 1 2 3;
    cbn [setIsConnecting setCurrentTranscript setTranscriptHistory modify];
    unfold bind at 1; cbn [gets];
    cbn [API_KEY with_transcriptHistory with_currentTranscript with_isConnecting];
    rewrite Hk; [reflexivity|].
  cbn [negb when]. unfold bind at 1. cbn [throw].
  by rewrite start_catch_run.
Qed.

Lemma exec_startRecording (w : World) :
  exec startRecording w
  = if key_present (API_KEY w) then started w else caught (reset w).
Proof. unfold exec. by rewrite startRecording_run. Qed.

Lemma resume_getUserMedia_run (j : nat) (lang : Language)
    (settled : Completion MediaStream) (construct : Completion AudioContext)
    (w : World) :
  let w0 := with_invocations
              (alter (with_awaiting_getUserMedia false) j (invocations w)) w in
  resume_getUserMedia j lang settled construct w
  = (Normal tt,
     match settled, construct with
     | Throw _, _ => caught w0
     | Normal s, Throw _ => caught (with_streamRef (Some s) w0)
     | Normal s, Normal c =>
         with_invocations
           (alter (fun inv => with_sessionPromise (Some Pending) (with_locals s c inv))
              j (invocations w0))
           (with_trace (trace w ++ [Connect model (systemInstruction lang)])
              (with_audioContextRef (Some c) (with_streamRef (Some s) w0)))
     end).
Proof.
  cbn zeta. unfold resume_getUserMedia, bind at 1, update_invocation.
  cbn [modify].
  destruct settled as [s|e], construct as [c|e'];
    unfold try_catch, bind; cbn [await ret throw modify];
    rewrite ?emit_run, ?start_catch_run; try reflexivity;
    by destruct w.
Qed.

Lemma settle_sessionPromise_run (j : nat) (queued : list Blob)
    (settled : Completion LiveSession) (w : World) :
  let w0 := with_invocations
              (alter (fun inv =>
                        with_reactions []
                          (with_sessionPromise
                             (Some match settled with
                                   | Normal s => Fulfilled s
                                   | Throw e => Rejected e
                                   end) inv)) j (invocations w)) w in
  settle_sessionPromise j queued settled w
  = (Normal tt,
     match settled with
     | Normal s =>
         with_trace (trace w ++ map (SendRealtimeInput s) queued)
           (with_sessionRef (Some s) w0)
     | Throw _ => caught w0
     end).
Proof.
  cbn zeta. unfold settle_sessionPromise, bind at 1, update_invocation.
  cbn [modify].
  destruct settled as [s|e];
    unfold try_catch, bind; cbn [await ret throw modify];
    rewrite ?forEach_emit, ?start_catch_run; [by destruct w | done].
Qed.

Lemma onopen_run (j : nat) (host : OpenHost) (w : World) :
  onopen j host w
  = match createMediaStreamSource host, createScriptProcessor host with
    | Normal _, Normal p =>
        let attached :=
          with_invocations
            (alter (with_onaudioprocess_set true) j (invocations w))
            (with_scriptProcessorRef (Some p) w) in
        match connect_processor host, connect_destination host with
        | Normal _, Normal _ =>
            (Normal tt, with_isRecording true (with_isConnecting false attached))
        | Normal _, Throw e => (Throw e, attached)
        | Throw e, _ => (Throw e, attached)
        end
    | Normal _, Throw e => (Throw e, w)
    | Throw e, _ => (Throw e, w)
    end.
Proof.
  unfold onopen.
  destruct (createMediaStreamSource host) as [src|e],
    (createScriptProcessor host) as [p|e'],
    (connect_processor host) as [[]|e1],
    (connect_destination host) as [[]|e2]; try reflexivity.
Qed.

Lemma onmessage_run (message : LiveServerMessage) (w : World) :
  exists c, exec (onmessage message) w = with_currentTranscript c w.
Proof.
  unfold onmessage.
  destruct (serverContent message) as [[[tr|]]|].
  - eexists. reflexivity.
  - exists (currentTranscript w). by destruct w.
  - exists (currentTranscript w). by destruct w.
Qed.

Lemma alter_found (f : Invocation -> Invocation) (l : list Invocation)
    (i : nat) (x : Invocation) :
  l !! i = Some x -> alter f i l = <[i := f x]> l.
Proof.
  revert i. induction l as [|y l IH]; intros [|i] H; try done.
  - cbn in H. by injection H as ->.
  - cbn in *. by rewrite (IH i H).
Qed.

Lemma run_cons (w : World) (ev : Event) (evs : list Event) :
  run w (ev :: evs) = run (step w ev) evs.
Proof. reflexivity. Qed.

Lemma lookup_last_invocation (l : list Invocation) (x : Invocation) :
  (l ++ [x]) !! length l = Some x.
Proof. by apply list_lookup_middle. Qed.

Lemma alter_last_invocation (f : Invocation -> Invocation)
    (l : list Invocation) (x : Invocation) :
  alter f (length l) (l ++ [x]) = l ++ [f x].
Proof. induction l as [|y l IH]; cbn; [done | by rewrite IH]. Qed.

Lemma getUserMedia_settled (w : World) (settled : Completion MediaStream)
    (construct : Completion AudioContext) :
  step (started w) (GetUserMediaSettled (length (invocations w)) settled construct)
  = match settled, construct with
    | Throw _, _ => caught (device_settled w)
    | Normal s, Throw _ => caught (with_streamRef (Some s) (device_settled w))
    | Normal s, Normal c => connecting w s c
    end.
Proof.
  destruct w as [rec con lang hist cur ses str ctx proc key invs tr].
  unfold step, dispatch, on_invocation, started, reset, device_settled, connecting.
  cbn [invocations with_invocations with_trace with_transcriptHistory
       with_currentTranscript with_isConnecting trace language].
  rewrite lookup_last_invocation.
  cbn [fresh awaiting_getUserMedia when captured_language].
  unfold resume_getUserMedia, exec, bind at 1, update_invocation.
  cbn [modify with_invocations invocations].
  rewrite alter_last_invocation.
  destruct settled as [s|e], construct as [c|e'];
    unfold try_catch, bind; cbn [await ret throw modify];
    rewrite ?emit_run, ?start_catch_run; cbn [snd]; try reflexivity.
  cbn. rewrite alter_last_invocation. by rewrite <- app_assoc.
Qed.

Lemma sessionPromise_settled (w : World) (s : MediaStream) (c : AudioContext)
    (settled : Completion LiveSession) :
  step (connecting w s c) (SessionSettled (length (invocations w)) settled)
  = match settled with
    | Normal session =>
        with_sessionRef (Some session) (session_settled w s c (Fulfilled session))
    | Throw e => caught (session_settled w s c (Rejected e))
    end.
Proof.
  destruct w as [rec con lang hist cur ses str ctx proc key invs tr].
  unfold step, dispatch, on_invocation, connecting, session_settled, reset.
  cbn [invocations with_invocations with_trace with_transcriptHistory
       with_currentTranscript with_isConnecting with_streamRef
       with_audioContextRef trace language].
  rewrite lookup_last_invocation.
  cbn [fresh with_awaiting_getUserMedia with_locals with_sessionPromise
       sessionPromise reactions].
  unfold settle_sessionPromise, exec, bind at 1, update_invocation.
  cbn [modify with_invocations invocations].
  rewrite alter_last_invocation.
  destruct settled as [session|e];
    unfold try_catch, bind; cbn [await ret throw modify forEach];
    rewrite ?start_catch_run; cbn [snd]; reflexivity.
Qed.

Lemma toggle_when_idle (w : World) :
  idle w = true -> step w Toggle = exec startRecording w.
Proof.
  unfold idle, step, dispatch, handleToggleRecording, exec, bind, gets.
  by destruct (isRecording w), (isConnecting w).
Qed.






(** C9. Every call of [startRecording] leaves the in-progress transcript
    and the history empty, before anything is acquired: when its first
    phase ends no stream, audio context or session is held that was not
    held before. They stay empty through the rest of the invocation,
    however the device request and the connection settle. *)
Theorem start_clears_transcript (w : World)
    (settled : Completion MediaStream) (construct : Completion AudioContext)
    (session : Completion LiveSession) :
  let i := length (invocations w) in
  let w1 := exec startRecording w in
  let w2 := step w1 (GetUserMediaSettled i settled construct) in
  let w3 := step w2 (SessionSettled i session) in
  (transcriptHistory w1 = [] /\ currentTranscript w1 = [])
  /\ (forall s, streamRef w1 = Some s -> streamRef w = Some s)
  /\ (forall c, audioContextRef w1 = Some c -> audioContextRef w = Some c)
  /\ (forall s, sessionRef w1 = Some s -> sessionRef w = Some s)
  /\ (transcriptHistory w2 = [] /\ currentTranscript w2 = [])
  /\ (transcriptHistory w3 = [] /\ currentTranscript w3 = []).
Proof.
  cbn zeta. rewrite exec_startRecording.
  destruct (key_present (API_KEY w)) eqn:Hkey.
  - rewrite getUserMedia_settled.
    split; [by destruct w|]. do 3 (split; [by destruct w|]).
    destruct settled as [s|e], construct as [c|e'];
      rewrite ?sessionPromise_settled; try destruct session;
      (split; [by destruct w|]).
    1-2: by destruct w.
    all: destruct w as [rec con lang hist cur ses str ctx proc k invs tr];
      unfold step, dispatch, on_invocation, caught, stopped, device_settled,
        started, reset;
      cbn [invocations with_invocations with_trace with_streamRef
           with_transcriptHistory with_currentTranscript with_isConnecting];
      rewrite lookup_last_invocation; by cbn.
  - assert (Hstay : forall ev, (exists settled construct,
                ev = GetUserMediaSettled (length (invocations w)) settled construct)
              \/ (exists session, ev = SessionSettled (length (invocations w)) session) ->
              step (caught (reset w)) ev = caught (reset w)).
    { intros ev Hev.
      assert (Hnone : invocations (caught (reset w)) !! length (invocations w) = None).
      { destruct w. cbn. by apply lookup_ge_None. }
      destruct Hev as [(s & c & ->)|(s & ->)];
        unfold step, dispatch, on_invocation; by rewrite Hnone. }
    rewrite !Hstay by eauto.
    split; [by destruct w|].
    clear Hstay Hkey.
    destruct w as [rec con lang hist cur ses str ctx proc k invs tr]; cbn.
    repeat split; try (intros; discriminate).
    intros c. destruct ctx as [a|]; [destruct (is_closed (state a))|]; congruence.
Qed.

(** ** The guard on starting *)

(** [startRecording] called while streaming is not a no-op: it goes to
    connecting, drops the text in progress and asks for the device, and
    when its connection resolves the session held before is overwritten
    without having been closed. *)
Lemma start_while_streaming_changes_state :
  let w := Sample.streaming in
  let w1 := exec startRecording w in
  let w2 := run w1 [GetUserMediaSettled 1 (Normal Sample.microphone) (Normal Sample.audio);
                    SessionSettled 1 (Normal 6)] in
  idle w = false
  /\ (isConnecting w = false /\ isConnecting w1 = true)
  /\ (currentTranscript w = lit "hello" /\ currentTranscript w1 = [])
  /\ trace w1 = trace w ++ [GetUserMedia]
  /\ w1 <> w
  /\ (sessionRef w = Some 5 /\ sessionRef w2 = Some 6
      /\ existsb (fun e => match e with SessionClose _ => true | _ => false end)
           (trace w2) = false).
Proof.
  cbn zeta. repeat apply conj; try (vm_compute; reflexivity).
  intros H. apply (f_equal isConnecting) in H. vm_compute in H. discriminate H.
Qed.

(** C3, as the code has it. [startRecording] has no guard of its own; the
    guard is in [handleToggleRecording], its only caller, which starts
    only when the controller is idle. A toggle while connecting or
    streaming runs [stopRecording] instead: no invocation begins, the
    host sees releases only (no request, no alert), and the controller
    goes to idle. *)
Theorem toggle_starts_only_when_idle (w : World) :
  idle w = false ->
  handleToggleRecording w = stopRecording w
  /\ invocations (step w Toggle) = invocations w
  /\ trace (step w Toggle) = trace w ++ released w
  /\ forallb is_release (released w) = true
  /\ idle (step w Toggle) = true
  /\ sessionRef (step w Toggle) = None.
Proof.
  intros Hidle.
  assert (H : handleToggleRecording w = stopRecording w).
  { unfold idle in Hidle. unfold handleToggleRecording, bind, gets.
    by destruct (isRecording w), (isConnecting w). }
  unfold step, dispatch, exec. rewrite H, stopRecording_stopped. cbn [snd].
  repeat split.
  unfold released.
  rewrite !forallb_app.
  destruct (sessionRef w), (streamRef w) as [s|], (scriptProcessorRef w),
    (audioContextRef w) as [a|]; cbn; try destruct (is_closed (state a)); cbn;
    rewrite ?andb_true_r; try reflexivity;
    induction (getTracks s); cbn; done.
Qed.

Lemma toggle_starts_only_when_idle_witness :
  let w := Sample.streaming in
  idle w = false
  /\ handleToggleRecording w = stopRecording w
  /\ idle (step w Toggle) = true.
Proof.
  cbn zeta.
  assert (Hidle : idle Sample.streaming = false) by (vm_compute; reflexivity).
  split; [exact Hidle|].
  destruct (toggle_starts_only_when_idle Sample.streaming Hidle)
    as (H1 & _ & _ & _ & H2 & _).
  split; [exact H1 | exact H2].
Defined.

(** ** The frame encoder *)

Lemma int16_in_range (z : Z) :
  (-32768 <= z <= 32767)%Z -> int16 z = z.
Proof. intros H. unfold int16. rewrite Z.mod_small; lia. Qed.

Lemma clamp_in_range (z : Z) : (-32767 <= clamp z <= 32767)%Z.
Proof. unfold clamp. lia. Qed.

Lemma round_mono (x y : Q) : (x <= y)%Q -> (round x <= round y)%Z.
Proof.
  intros H. unfold round. apply Qfloor_resp_le.
  apply Qplus_le_compat; [exact H | apply Qle_refl].
Qed.

Lemma scale_mono (x y : Q) : (x <= y)%Q -> (x * 32767 <= y * 32767)%Q.
Proof. intros H. apply Qmult_le_compat_r; [exact H | discriminate]. Qed.

(** C8. The encoder is a total function of the samples. A sample in
    [-1, 1] is converted to [round (sample * 32767)]; a sample at or
    beyond 1 gives 32767 and one at or beyond -1 gives -32767; in every
    case the value stored in the 16-bit slot is the clamped one, within
    [-32767, 32767], so nothing wraps. *)
Theorem encode_sample_clamps (sample : Q) :
  encode_sample sample = clamp (round (sample * 32767))
  /\ (-32767 <= encode_sample sample <= 32767)%Z
  /\ ((-1 <= sample)%Q -> (sample <= 1)%Q ->
      encode_sample sample = round (sample * 32767))
  /\ ((1 <= sample)%Q -> encode_sample sample = 32767%Z)
  /\ ((sample <= -1)%Q -> encode_sample sample = (-32767)%Z).
Proof.
  assert (Hstore : encode_sample sample = clamp (round (sample * 32767))).
  { unfold encode_sample. apply int16_in_range.
    pose proof (clamp_in_range (round (sample * 32767))). lia. }
  rewrite Hstore. split; [reflexivity|].
  split; [apply clamp_in_range|].
  assert (Hhi : round (1 * 32767) = 32767%Z) by reflexivity.
  assert (Hlo : round (-1 * 32767) = (-32767)%Z) by reflexivity.
  repeat split.
  - intros H1 H2.
    pose proof (round_mono _ _ (scale_mono _ _ H1)).
    pose proof (round_mono _ _ (scale_mono _ _ H2)).
    unfold clamp. lia.
  - intros H. pose proof (round_mono _ _ (scale_mono _ _ H)).
    unfold clamp. lia.
  - intros H. pose proof (round_mono _ _ (scale_mono _ _ H)).
    unfold clamp. lia.
Qed.

(** ** The frame pipeline *)

Lemma audio_while_pending (w : World) (i : nat) (inv : Invocation) (d : list Q) :
  invocations w !! i = Some inv ->
  onaudioprocess_set inv = true ->
  sessionPromise inv = Some Pending ->
  step w (AudioProcess i d)
  = with_invocations
      (<[i := with_reactions (reactions inv ++ [createBlob d]) inv]> (invocations w)) w.
Proof.
  intros Hi Hset Hp. unfold step, dispatch, on_invocation.
  rewrite Hi, Hset, Hp. unfold onaudioprocess, exec, update_invocation, modify.
  cbn [snd]. by rewrite (alter_found _ _ _ _ Hi).
Qed.

Lemma audio_run_while_pending (ds : list (list Q)) (w : World) (i : nat)
    (inv : Invocation) :
  invocations w !! i = Some inv ->
  onaudioprocess_set inv = true ->
  sessionPromise inv = Some Pending ->
  run w (map (AudioProcess i) ds)
  = with_invocations
      (<[i := with_reactions (reactions inv ++ map createBlob ds) inv]> (invocations w)) w.
Proof.
  revert w inv. induction ds as [|d ds IH]; intros w inv Hi Hset Hp.
  - cbn. rewrite app_nil_r.
    replace (with_reactions (reactions inv) inv) with inv by (by destruct inv).
    rewrite list_insert_id by done. by destruct w.
  - cbn [map]. rewrite run_cons.
    rewrite (audio_while_pending w i inv d Hi Hset Hp).
    assert (Hlt : i < length (invocations w)) by (by eapply lookup_lt_Some).
    erewrite IH; cycle 1.
    + destruct w; cbn in *. by apply list_lookup_insert_eq.
    + done.
    + done.
    + destruct w; cbn. rewrite list_insert_insert_eq.
      by rewrite <- app_assoc.
Qed.

Lemma session_fulfilled (w : World) (i : nat) (inv : Invocation) (session : LiveSession) :
  invocations w !! i = Some inv ->
  sessionPromise inv = Some Pending ->
  step w (SessionSettled i (Normal session))
  = with_trace (trace w ++ map (SendRealtimeInput session) (reactions inv))
      (with_sessionRef (Some session)
         (with_invocations
            (<[i := with_reactions []
                      (with_sessionPromise (Some (Fulfilled session)) inv)]>
               (invocations w)) w)).
Proof.
  intros Hi Hp. unfold step, dispatch, on_invocation. rewrite Hi, Hp.
  unfold settle_sessionPromise, exec, bind at 1, update_invocation.
  cbn [modify]. rewrite (alter_found _ _ _ _ Hi).
  unfold try_catch, bind. cbn [await ret modify].
  rewrite forEach_emit. by destruct w.
Qed.

Lemma audio_when_fulfilled (w : World) (i : nat) (inv : Invocation)
    (session : LiveSession) (d : list Q) :
  invocations w !! i = Some inv ->
  onaudioprocess_set inv = true ->
  sessionPromise inv = Some (Fulfilled session) ->
  step w (AudioProcess i d)
  = with_trace (trace w ++ [SendRealtimeInput session (createBlob d)]) w.
Proof.
  intros Hi Hset Hp. unfold step, dispatch, on_invocation.
  by rewrite Hi, Hset, Hp.
Qed.

Lemma audio_run_when_fulfilled (ds : list (list Q)) (w : World) (i : nat)
    (inv : Invocation) (session : LiveSession) :
  invocations w !! i = Some inv ->
  onaudioprocess_set inv = true ->
  sessionPromise inv = Some (Fulfilled session) ->
  run w (map (AudioProcess i) ds)
  = with_trace (trace w ++ map (SendRealtimeInput session) (map createBlob ds)) w.
Proof.
  revert w. induction ds as [|d ds IH]; intros w Hi Hset Hp.
  - cbn. rewrite app_nil_r. by destruct w.
  - cbn [map]. rewrite run_cons.
    rewrite (audio_when_fulfilled w i inv session d Hi Hset Hp).
    rewrite IH by (by destruct w).
    destruct w; cbn. by rewrite <- app_assoc.
Qed.

(** C6. Frames produced while the session promise is pending are queued,
    none is sent and none is lost; when the promise resolves they are
    sent in the order of their production, before every frame produced
    afterwards, and those follow in their order too. *)
Theorem frames_flushed_in_order (w : World) (i : nat) (inv : Invocation)
    (session : LiveSession) (before after : list (list Q)) :
  invocations w !! i = Some inv ->
  onaudioprocess_set inv = true ->
  sessionPromise inv = Some Pending ->
  let held := run w (map (AudioProcess i) before) in
  let sent := run held (SessionSettled i (Normal session) :: map (AudioProcess i) after) in
  trace held = trace w
  /\ (exists inv', invocations held !! i = Some inv'
        /\ reactions inv' = reactions inv ++ map createBlob before)
  /\ trace sent
     = trace w
       ++ map (SendRealtimeInput session)
            (reactions inv ++ map createBlob before ++ map createBlob after)
  /\ (exists inv', invocations sent !! i = Some inv' /\ reactions inv' = []).
Proof.
  intros Hi Hset Hp. cbn zeta.
  assert (Hlt : i < length (invocations w)) by (by eapply lookup_lt_Some).
  rewrite (audio_run_while_pending before w i inv Hi Hset Hp).
  set (queued := with_reactions (reactions inv ++ map createBlob before) inv).
  set (held := with_invocations (<[i := queued]> (invocations w)) w).
  assert (Hq : invocations held !! i = Some queued).
  { unfold held. destruct w; cbn in *. by apply list_lookup_insert_eq. }
  split; [by destruct w|].
  split; [by exists queued|].
  rewrite run_cons.
  rewrite (session_fulfilled held i queued session Hq Hp).
  set (flushed := with_reactions [] (with_sessionPromise (Some (Fulfilled session)) queued)).
  assert (Hlen : i < length (invocations held)).
  { by eapply lookup_lt_Some. }
  erewrite (audio_run_when_fulfilled after _ i flushed session); cycle 1.
  - destruct held; cbn in *. by apply list_lookup_insert_eq.
  - done.
  - done.
  - split.
    + unfold held. destruct w; cbn. rewrite <- app_assoc.
      by rewrite !map_app, <- !app_assoc.
    + exists flushed. split; [|done].
      destruct held; cbn in *. by apply list_lookup_insert_eq.
Qed.

Lemma frames_flushed_in_order_witness :
  let w := Sample.opening in
  let before := [[1 # 1]; [0]]%Q in
  let after := [[-1 # 1]]%Q in
  exists inv,
    invocations w !! 0 = Some inv
    /\ onaudioprocess_set inv = true
    /\ sessionPromise inv = Some Pending
    /\ trace (run (run w (map (AudioProcess 0) before))
                (SessionSettled 0 (Normal 5) :: map (AudioProcess 0) after))
       = trace w
         ++ map (SendRealtimeInput 5)
              (reactions inv ++ map createBlob before ++ map createBlob after).
Proof.
  cbn zeta.
  assert (Hinv : exists inv, invocations Sample.opening !! 0 = Some inv
                   /\ onaudioprocess_set inv = true
                   /\ sessionPromise inv = Some Pending).
  { eexists. vm_compute. repeat split. }
  destruct Hinv as (inv & Hi & Hset & Hp). exists inv.
  split; [exact Hi|]. split; [exact Hset|]. split; [exact Hp|].
  destruct (frames_flushed_in_order Sample.opening 0 inv 5
              [[1 # 1]; [0]]%Q [[-1 # 1]]%Q Hi Hset Hp) as (_ & _ & H & _).
  exact H.
Defined.

(** ** Frames only after the open event *)

Lemma sends_app (t t' : list Effect) : sends (t ++ t') = sends t ++ sends t'.
Proof. unfold sends. by rewrite flat_map_app. Qed.

Lemma sends_released (w : World) : sends (released w) = [].
Proof.
  unfold released. rewrite !sends_app.
  destruct (sessionRef w), (streamRef w) as [s|], (scriptProcessorRef w),
    (audioContextRef w) as [a|]; cbn; try destruct (is_closed (state a)); cbn;
    rewrite ?app_nil_r; try reflexivity;
    induction (getTracks s); cbn; done.
Qed.

Lemma sends_stopped (w : World) : sends (trace (stopped w)) = sends (trace w).
Proof.
  replace (trace (stopped w)) with (trace w ++ released w) by (by destruct w).
  by rewrite sends_app, sends_released, app_nil_r.
Qed.

Lemma sends_caught (w : World) : sends (trace (caught w)) = sends (trace w).
Proof.
  unfold caught. rewrite sends_stopped.
  replace (trace (with_trace _ w))
    with (trace w ++ [ConsoleError "Failed to start recording:"; Alert could_not_start])
    by (by destruct w).
  by rewrite sends_app, app_nil_r.
Qed.

Lemma invocations_stopped (w : World) : invocations (stopped w) = invocations w.
Proof. by destruct w. Qed.

Lemma invocations_caught (w : World) : invocations (caught w) = invocations w.
Proof. by destruct w. Qed.

Lemma StoreChange_unopened (l l' : list Invocation) (i : nat) :
  StoreChange l l' ->
  match l !! i with Some inv => no_frames inv | None => true end = true ->
  match l' !! i with Some inv => no_frames inv | None => true end = true.
Proof.
  intros [|f j Hf|lang] H; [done| |].
  - rewrite list_lookup_alter. case_decide as Hj; [subst j|done].
    destruct (l !! i) as [inv|] eqn:Hi; cbn; [|done]. by apply Hf.
  - destruct (decide (i < length l)) as [Hlt|Hge].
    + by rewrite lookup_app_l.
    + destruct (decide (i = length l)) as [->|Hne].
      * by rewrite lookup_last_invocation.
      * rewrite lookup_ge_None_2; [done|]. rewrite length_app. cbn. lia.
Qed.

Tactic Notation "store_is" constr(l) "by" tactic3(t) :=
  match goal with
  | |- StoreChange _ ?x => replace x with l by t
  end.

Lemma step_store (w : World) (ev : Event) (i : nat) :
  unopened w i = true -> is_open_of i ev = false ->
  StoreChange (invocations w) (invocations (step w ev))
  \/ exists j f, j <> i
       /\ invocations (step w ev) = alter f j (invocations w).
Proof.
  intros Hun Hev. unfold step.
  destruct ev as [| |l|j settled construct|j host|j settled|j message|j e|j|j d];
    cbn [dispatch].
  - left. unfold handleToggleRecording, exec, bind, gets.
    destruct (isRecording w || isConnecting w).
    + rewrite stopRecording_stopped. cbn [snd]. rewrite invocations_stopped.
      constructor.
    + rewrite startRecording_run. cbn [snd].
      destruct (key_present (API_KEY w)).
      * store_is (invocations w ++ [fresh (language w)]) by (by destruct w).
        constructor.
      * rewrite invocations_caught. store_is (invocations w) by (by destruct w).
        constructor.
  - left. unfold exec. rewrite stopRecording_stopped. cbn [snd].
    rewrite invocations_stopped. constructor.
  - left. apply Unchanged.
  - left. unfold on_invocation.
    destruct (invocations w !! j) as [inv|]; [|constructor].
    destruct (awaiting_getUserMedia inv); [|constructor]. cbn [when].
    unfold exec. rewrite resume_getUserMedia_run. cbn [snd].
    destruct settled as [s|e], construct as [c|e'];
      rewrite ?invocations_caught.
    + store_is (alter ((fun inv => with_sessionPromise (Some Pending) (with_locals s c inv))
                     ∘ with_awaiting_getUserMedia false) j (invocations w))
        by (destruct w;
            cbn [invocations with_invocations with_trace with_audioContextRef
                 with_streamRef];
            by rewrite list_alter_alter_eq).
      constructor. intros [] _ H. exact H.
    + store_is (alter (with_awaiting_getUserMedia false) j (invocations w))
        by (by destruct w).
      constructor. intros [] _ H. exact H.
    + store_is (alter (with_awaiting_getUserMedia false) j (invocations w))
        by (by destruct w).
      constructor. intros [] _ H. exact H.
    + store_is (alter (with_awaiting_getUserMedia false) j (invocations w))
        by (by destruct w).
      constructor. intros [] _ H. exact H.
  - cbn in Hev. apply Nat.eqb_neq in Hev. unfold on_invocation.
    destruct (invocations w !! j) as [inv|]; [|left; constructor].
    destruct (connect_called inv); [|left; constructor]. cbn [when].
    unfold exec. rewrite onopen_run.
    destruct (createMediaStreamSource host) as [src|e],
      (createScriptProcessor host) as [p|e']; cbn zeta; cbn [snd];
      try (left; apply Unchanged).
    right. exists j, (with_onaudioprocess_set true). split; [done|].
    destruct (connect_processor host) as [[]|], (connect_destination host) as [[]|];
      by destruct w.
  - left. unfold on_invocation.
    destruct (invocations w !! j) as [inv|]; [|constructor].
    destruct (sessionPromise inv) as [[| |]|]; try apply Unchanged.
    unfold exec. rewrite settle_sessionPromise_run. cbn [snd].
    destruct settled as [s|e]; rewrite ?invocations_caught.
    + store_is (alter (fun inv => with_reactions []
                 (with_sessionPromise (Some (Fulfilled s)) inv)) j (invocations w))
        by (by destruct w).
      constructor. intros [] _ H. cbn in *.
      by destruct onaudioprocess_set0.
    + store_is (alter (fun inv => with_reactions []
                 (with_sessionPromise (Some (Rejected e)) inv)) j (invocations w))
        by (by destruct w).
      constructor. intros [] _ H. cbn in *.
      by destruct onaudioprocess_set0.
  - left. unfold on_invocation.
    destruct (invocations w !! j) as [inv|]; [|constructor].
    destruct (connect_called inv); [|constructor]. cbn [when].
    destruct (onmessage_run message w) as [c ->].
    store_is (invocations w) by (by destruct w).
    constructor.
  - left. unfold on_invocation.
    destruct (invocations w !! j) as [inv|]; [|constructor].
    destruct (connect_called inv); [|constructor]. cbn [when].
    unfold exec. rewrite onerror_run. cbn [snd]. rewrite invocations_stopped.
    store_is (invocations w) by (by destruct w).
    constructor.
  - left. unfold on_invocation.
    destruct (invocations w !! j) as [inv|]; [|constructor].
    destruct (connect_called inv); [|constructor]. cbn [when].
    unfold exec, onclose. rewrite stopRecording_stopped. cbn [snd].
    rewrite invocations_stopped. constructor.
  - unfold on_invocation.
    destruct (invocations w !! j) as [inv|] eqn:Hj; [|left; constructor].
    destruct (onaudioprocess_set inv) eqn:Hset; [|left; constructor].
    destruct (sessionPromise inv) as [[|s|e]|]; try (left; apply Unchanged).
    right. exists j, (fun inv => with_reactions (reactions inv ++ [createBlob d]) inv).
    split; [|by destruct w].
    intros ->. unfold unopened in Hun. rewrite Hj in Hun.
    unfold no_frames in Hun. by rewrite Hset in Hun.
Qed.

Lemma step_unopened (w : World) (ev : Event) (i : nat) :
  unopened w i = true -> is_open_of i ev = false ->
  unopened (step w ev) i = true.
Proof.
  intros Hun Hev.
  destruct (step_store w ev i Hun Hev) as [Hch|(j & f & Hj & Hst)].
  - by apply (StoreChange_unopened _ _ i Hch).
  - unfold unopened in *. by rewrite Hst, list_lookup_alter_ne.
Qed.

Lemma run_unopened (evs : list Event) (w : World) (i : nat) :
  unopened w i = true -> forallb (fun ev => negb (is_open_of i ev)) evs = true ->
  unopened (run w evs) i = true.
Proof.
  revert w. induction evs as [|ev evs IH]; intros w Hun Hevs; [done|].
  cbn in Hevs. apply andb_true_iff in Hevs as [Hev Hevs].
  apply negb_true_iff in Hev.
  rewrite run_cons. apply IH; [by apply step_unopened | done].
Qed.

(** With no handler attached and no frame queued anywhere, a step other
    than an open event sends nothing. *)
Lemma step_sends (w : World) (ev : Event) :
  (forall i, unopened w i = true) -> is_open ev = false ->
  sends (trace (step w ev)) = sends (trace w).
Proof.
  intros Hun Hev. unfold step.
  destruct ev as [| |l|j settled construct|j host|j settled|j message|j e|j|j d];
    cbn [dispatch]; try discriminate Hev.
  - unfold handleToggleRecording, exec, bind, gets.
    destruct (isRecording w || isConnecting w).
    + rewrite stopRecording_stopped. cbn [snd]. apply sends_stopped.
    + rewrite startRecording_run. cbn [snd].
      destruct (key_present (API_KEY w)).
      * replace (trace (started w)) with (trace w ++ [GetUserMedia])
          by (by destruct w).
        by rewrite sends_app, app_nil_r.
      * rewrite sends_caught. by destruct w.
  - unfold exec. rewrite stopRecording_stopped. apply sends_stopped.
  - reflexivity.
  - unfold on_invocation.
    destruct (invocations w !! j) as [inv|]; [|done].
    destruct (awaiting_getUserMedia inv); [|done]. cbn [when].
    unfold exec. rewrite resume_getUserMedia_run. cbn [snd].
    destruct settled as [s|e], construct as [c|e'];
      rewrite ?sends_caught; try by destruct w.
    replace (trace _)
      with (trace w ++ [Connect model (systemInstruction (captured_language inv))])
      by (by destruct w).
    by rewrite sends_app, app_nil_r.
  - unfold on_invocation.
    destruct (invocations w !! j) as [inv|] eqn:Hj; [|done].
    destruct (sessionPromise inv) as [[| |]|]; try done.
    assert (Hq : reactions inv = []).
    { specialize (Hun j). unfold unopened in Hun. rewrite Hj in Hun.
      unfold no_frames in Hun. apply andb_true_iff in Hun as [_ Hun].
      by destruct (reactions inv). }
    unfold exec. rewrite settle_sessionPromise_run, Hq. cbn [snd].
    destruct settled as [s|e]; rewrite ?sends_caught; try by destruct w.
    replace (trace _) with (trace w ++ []) by (by destruct w).
    by rewrite app_nil_r.
  - unfold on_invocation.
    destruct (invocations w !! j) as [inv|]; [|done].
    destruct (connect_called inv); [|done]. cbn [when].
    destruct (onmessage_run message w) as [c ->]. by destruct w.
  - unfold on_invocation.
    destruct (invocations w !! j) as [inv|]; [|done].
    destruct (connect_called inv); [|done]. cbn [when].
    unfold exec. rewrite onerror_run. cbn [snd]. rewrite sends_stopped.
    replace (trace (with_trace _ w))
      with (trace w ++ [ConsoleError "API Error:"; Alert (api_error e)])
      by (by destruct w).
    by rewrite sends_app, app_nil_r.
  - unfold on_invocation.
    destruct (invocations w !! j) as [inv|]; [|done].
    destruct (connect_called inv); [|done]. cbn [when].
    unfold exec, onclose. rewrite stopRecording_stopped. apply sends_stopped.
  - unfold on_invocation.
    destruct (invocations w !! j) as [inv|] eqn:Hj; [|done].
    specialize (Hun j). unfold unopened in Hun. rewrite Hj in Hun.
    unfold no_frames in Hun. apply andb_true_iff in Hun as [Hun _].
    apply negb_true_iff in Hun. by rewrite Hun.
Qed.

Lemma is_open_of_any (ev : Event) (i : nat) :
  is_open ev = false -> is_open_of i ev = false.
Proof. by destruct ev. Qed.

Lemma run_sends (evs : list Event) (w : World) :
  (forall i, unopened w i = true) -> forallb (fun ev => negb (is_open ev)) evs = true ->
  sends (trace (run w evs)) = sends (trace w).
Proof.
  revert w. induction evs as [|ev evs IH]; intros w Hun Hevs; [done|].
  cbn in Hevs. apply andb_true_iff in Hevs as [Hev Hevs].
  apply negb_true_iff in Hev.
  rewrite run_cons, IH; [by apply step_sends| |done].
  intros i. apply step_unopened; [done | by apply is_open_of_any].
Qed.

(** Only [onopen] sets [isRecording], and it has attached the frame
    handler by then. *)
Lemma step_to_recording (w : World) (ev : Event) :
  isRecording w = false -> isRecording (step w ev) = true ->
  exists i host source p inv',
    ev = Opened i host
    /\ createMediaStreamSource host = Normal source
    /\ createScriptProcessor host = Normal p
    /\ connect_processor host = Normal tt
    /\ connect_destination host = Normal tt
    /\ scriptProcessorRef (step w ev) = Some p
    /\ invocations (step w ev) !! i = Some inv'
    /\ onaudioprocess_set inv' = true.
Proof.
  intros Hrec. unfold step.
  destruct ev as [| |l|j settled construct|j host|j settled|j message|j e|j|j d];
    cbn [dispatch].
  - unfold handleToggleRecording, exec, bind, gets.
    destruct (isRecording w || isConnecting w).
    + rewrite stopRecording_stopped. by destruct w.
    + rewrite startRecording_run. cbn [snd].
      destruct (key_present (API_KEY w)); destruct w; cbn in *; congruence.
  - unfold exec. rewrite stopRecording_stopped. by destruct w.
  - cbn. congruence.
  - unfold on_invocation.
    destruct (invocations w !! j) as [inv|]; [|cbn; congruence].
    destruct (awaiting_getUserMedia inv); [|cbn; congruence]. cbn [when].
    unfold exec. rewrite resume_getUserMedia_run. cbn [snd].
    destruct settled as [s|e], construct as [c|e'];
      destruct w; cbn in *; congruence.
  - unfold on_invocation.
    destruct (invocations w !! j) as [inv|] eqn:Hj; [|cbn; congruence].
    destruct (connect_called inv); [|cbn; congruence]. cbn [when].
    unfold exec. rewrite onopen_run.
    destruct (createMediaStreamSource host) as [src|e] eqn:Hsrc,
      (createScriptProcessor host) as [p|e'] eqn:Hp; cbn zeta; cbn [snd];
      try congruence.
    destruct (connect_processor host) as [[]|e1] eqn:Hc1,
      (connect_destination host) as [[]|e2] eqn:Hc2; cbn [snd];
      try (destruct w; cbn in *; congruence).
    intros _. exists j, host, src, p, (with_onaudioprocess_set true inv).
    repeat split; try done; try by destruct w.
    replace (invocations _)
      with (alter (with_onaudioprocess_set true) j (invocations w))
      by (by destruct w).
    by rewrite list_lookup_alter_eq, Hj.
  - unfold on_invocation.
    destruct (invocations w !! j) as [inv|]; [|cbn; congruence].
    destruct (sessionPromise inv) as [[| |]|]; try (cbn; congruence).
    unfold exec. rewrite settle_sessionPromise_run. cbn [snd].
    destruct settled as [s|e]; destruct w; cbn in *; congruence.
  - unfold on_invocation.
    destruct (invocations w !! j) as [inv|]; [|cbn; congruence].
    destruct (connect_called inv); [|cbn; congruence]. cbn [when].
    destruct (onmessage_run message w) as [c ->].
    destruct w; cbn in *; congruence.
  - unfold on_invocation.
    destruct (invocations w !! j) as [inv|]; [|cbn; congruence].
    destruct (connect_called inv); [|cbn; congruence]. cbn [when].
    unfold exec. rewrite onerror_run. by destruct w.
  - unfold on_invocation.
    destruct (invocations w !! j) as [inv|]; [|cbn; congruence].
    destruct (connect_called inv); [|cbn; congruence]. cbn [when].
    unfold exec, onclose. rewrite stopRecording_stopped. by destruct w.
  - unfold on_invocation.
    destruct (invocations w !! j) as [inv|]; [|cbn; congruence].
    destruct (onaudioprocess_set inv); [|cbn; congruence].
    destruct (sessionPromise inv) as [[|s|e]|]; destruct w; cbn in *; congruence.
Qed.

(** C7, as the code has it. The frame handler is attached by [onopen]
    and by nothing else: while no open event of an invocation has been
    delivered, that invocation has no handler and no frame queued,
    whatever else happens; in a run without open events nothing is sent;
    and the only step that takes the controller to recording is an
    [onopen] whose Web Audio calls all succeeded, which leaves the
    processor in its ref and the handler attached. *)
Theorem frames_only_after_open (w : World) (evs : list Event) :
  (forall i,
     unopened w i = true ->
     forallb (fun ev => negb (is_open_of i ev)) evs = true ->
     unopened (run w evs) i = true)
  /\ ((forall i, unopened w i = true) ->
      forallb (fun ev => negb (is_open ev)) evs = true ->
      sends (trace (run w evs)) = sends (trace w))
  /\ (forall ev,
        isRecording w = false -> isRecording (step w ev) = true ->
        exists i host source p inv',
          ev = Opened i host
          /\ createMediaStreamSource host = Normal source
          /\ createScriptProcessor host = Normal p
          /\ connect_processor host = Normal tt
          /\ connect_destination host = Normal tt
          /\ scriptProcessorRef (step w ev) = Some p
          /\ invocations (step w ev) !! i = Some inv'
          /\ onaudioprocess_set inv' = true).
Proof.
  split; [|split].
  - intros i. apply run_unopened.
  - apply run_sends.
  - apply step_to_recording.
Qed.

Lemma frames_only_after_open_witness :
  let w := mount Sample.key in
  let evs := [Toggle;
              GetUserMediaSettled 0 (Normal Sample.microphone) (Normal Sample.audio);
              AudioProcess 0 [1 # 2]%Q;
              SessionSettled 0 (Normal 5);
              AudioProcess 0 [1 # 4]%Q;
              Message 0 (server_text (lit "early"))] in
  forallb (fun ev => negb (is_open ev)) evs = true
  /\ unopened (run w evs) 0 = true
  /\ sends (trace (run w evs)) = []
  /\ isRecording (run w evs) = false.
Proof.
  cbn zeta.
  set (w := mount Sample.key).
  set (evs := [Toggle; _; _; _; _; _]).
  assert (Hev : forallb (fun ev => negb (is_open ev)) evs = true)
    by (vm_compute; reflexivity).
  assert (Hev0 : forallb (fun ev => negb (is_open_of 0 ev)) evs = true)
    by (vm_compute; reflexivity).
  assert (Hun : forall i, unopened w i = true).
  { intros i. unfold unopened, w. cbn. by destruct i. }
  destruct (frames_only_after_open w evs) as (H1 & H2 & _).
  split; [exact Hev|].
  split; [exact (H1 0 (Hun 0) Hev0)|].
  split; [exact (H2 Hun Hev)|].
  vm_compute. reflexivity.
Defined.


(** The handler is never detached and tests nothing: a buffer delivered
    after the user stopped, with the session closed and its ref empty,
    is still encoded and handed to the session. *)
Lemma frame_sent_after_close :
  let w := run Sample.streaming [Toggle] in
  let w' := step w (AudioProcess 0 [1 # 2]%Q) in
  idle w = true
  /\ sessionRef w = None
  /\ trace w
     = trace Sample.streaming
       ++ [SessionClose 5; TrackStop 0; NodeDisconnect 4; ContextClose Sample.audio]
  /\ trace w' = trace w ++ [SendRealtimeInput 5 (createBlob [1 # 2]%Q)].
Proof. cbn zeta. repeat apply conj; vm_compute; reflexivity. Qed.

(** ** Sample runs, evaluated *)

(** A session from start to remote close. The deltas are concatenated as
    they are: ["lo "] and [" world"] leave two spaces between the words. *)
Example session_run :
  let w := run (mount Sample.key)
             [Toggle;
              GetUserMediaSettled 0 (Normal Sample.microphone) (Normal Sample.audio);
              Opened 0 Sample.web_audio; SessionSettled 0 (Normal 5);
              Message 0 (server_text (lit "Hel"));
              Message 0 (server_text (lit "lo "));
              Message 0 (server_text (lit " world"));
              Closed 0] in
  idle w = true
  /\ transcriptHistory w = [lit "Hello  world"]
  /\ currentTranscript w = []
  /\ sessionRef w = None.
Proof. vm_compute. repeat split. Qed.

(** A stop while connecting, before the socket opens: the microphone is
    released and nothing was sent. *)
Example stop_while_connecting :
  let w := run (mount Sample.key)
             [Toggle;
              GetUserMediaSettled 0 (Normal Sample.microphone) (Normal Sample.audio);
              Toggle] in
  idle w = true
  /\ streamRef w = None
  /\ sends (trace w) = []
  /\ existsb (fun e => match e with TrackStop _ => true | _ => false end) (trace w)
     = true.
Proof. vm_compute. repeat split. Qed.

Example trim_sample : trim (lit "  a b  ") = lit "a b".
Proof. reflexivity. Qed.

Example encode_samples :
  map encode_sample [1; -1; 2; -5; 0; 1 # 2; -1 # 65534]%Q
  = [32767; -32767; 32767; -32767; 0; 16384; 0]%Z.
Proof. reflexivity. Qed.

(** * Further properties *)

(** ** One case analysis for the state on screen *)

Lemma visible_stopped (w x : World) (ev : Event) :
  transcriptHistory x = transcriptHistory w ->
  currentTranscript x = currentTranscript w ->
  Visible w ev (stopped x).
Proof.
  intros Hh Hc. apply Stopped; destruct x; cbn in *; congruence.
Qed.

Lemma step_visible (w : World) (ev : Event) : Visible w ev (step w ev).
Proof.
  unfold step.
  destruct ev as [| |l|j settled construct|j host|j settled|j message|j e|j|j d];
    cbn [dispatch].
  - unfold handleToggleRecording, exec, bind, gets.
    destruct (isRecording w || isConnecting w) eqn:Hbusy.
    + rewrite stopRecording_stopped. by apply visible_stopped.
    + assert (Hidle : idle w = true).
      { unfold idle. by destruct (isRecording w), (isConnecting w). }
      assert (Hrec : isRecording w = false) by (by destruct (isRecording w)).
      rewrite startRecording_run. cbn [snd].
      destruct (key_present (API_KEY w)).
      * apply Started; try done; destruct w; cbn in *; congruence.
      * apply StartRefused; try done; by destruct w.
  - unfold exec. rewrite stopRecording_stopped. by apply visible_stopped.
  - by apply Untouched.
  - unfold on_invocation.
    destruct (invocations w !! j) as [inv|]; [|by apply Untouched].
    destruct (awaiting_getUserMedia inv); [|by apply Untouched]. cbn [when].
    unfold exec. rewrite resume_getUserMedia_run. cbn [snd].
    destruct settled as [s|e], construct as [c|e']; unfold caught;
      try (apply visible_stopped; by destruct w).
    apply Untouched; by destruct w.
  - unfold on_invocation.
    destruct (invocations w !! j) as [inv|]; [|by apply Untouched].
    destruct (connect_called inv); [|by apply Untouched]. cbn [when].
    unfold exec. rewrite onopen_run.
    destruct (createMediaStreamSource host) as [src|e],
      (createScriptProcessor host) as [p|e']; cbn zeta; cbn [snd];
      try by apply Untouched.
    destruct (connect_processor host) as [[]|], (connect_destination host) as [[]|];
      cbn [snd];
      [apply (Wired _ _ _ p) | apply (Attached _ _ _ p)
       | apply (Attached _ _ _ p) | apply (Attached _ _ _ p)];
      by destruct w.
  - unfold on_invocation.
    destruct (invocations w !! j) as [inv|]; [|by apply Untouched].
    destruct (sessionPromise inv) as [[| |]|]; try by apply Untouched.
    unfold exec. rewrite settle_sessionPromise_run. cbn [snd].
    destruct settled as [s|e]; unfold caught.
    + apply Untouched; by destruct w.
    + apply visible_stopped; by destruct w.
  - unfold on_invocation.
    destruct (invocations w !! j) as [inv|]; [|by apply Untouched].
    destruct (connect_called inv); [|by apply Untouched]. cbn [when].
    unfold onmessage.
    destruct (serverContent message) as [[[[t]|]]|]; try by apply Untouched.
    apply (Appended _ _ _ t); by destruct w.
  - unfold on_invocation.
    destruct (invocations w !! j) as [inv|]; [|by apply Untouched].
    destruct (connect_called inv); [|by apply Untouched]. cbn [when].
    unfold exec. rewrite onerror_run. cbn [snd].
    apply visible_stopped; by destruct w.
  - unfold on_invocation.
    destruct (invocations w !! j) as [inv|]; [|by apply Untouched].
    destruct (connect_called inv); [|by apply Untouched]. cbn [when].
    unfold exec, onclose. rewrite stopRecording_stopped.
    by apply visible_stopped.
  - unfold on_invocation.
    destruct (invocations w !! j) as [inv|]; [|by apply Untouched].
    destruct (onaudioprocess_set inv); [|by apply Untouched].
    destruct (sessionPromise inv) as [[|s|e]|]; apply Untouched; by destruct w.
Qed.

(** ** Trimming *)

Lemma trimStart_suffix (s : jsstring) : exists pre, s = pre ++ trimStart s.
Proof.
  induction s as [|c s [pre IH]]; [by exists []|].
  cbn. destruct (is_white_space c).
  - exists (c :: pre). cbn. by rewrite <- IH.
  - by exists [].
Qed.

Lemma trimStart_head (s : jsstring) :
  match trimStart s with c :: _ => is_white_space c | [] => false end = false.
Proof.
  induction s as [|c s IH]; [done|].
  cbn. destruct (is_white_space c) eqn:Hc; [done|]. by rewrite Hc.
Qed.

Lemma trimStart_fixed (s : jsstring) :
  match s with c :: _ => is_white_space c | [] => false end = false ->
  trimStart s = s.
Proof. destruct s as [|c s]; [done|]. cbn. by intros ->. Qed.

Lemma trimStart_idempotent (s : jsstring) : trimStart (trimStart s) = trimStart s.
Proof. apply trimStart_fixed, trimStart_head. Qed.

Lemma trimEnd_prefix (s : jsstring) : exists post, s = trimEnd s ++ post.
Proof.
  unfold trimEnd. destruct (trimStart_suffix (rev s)) as [pre H].
  exists (rev pre). rewrite <- rev_app_distr, <- H. by rewrite rev_involutive.
Qed.

Lemma trimEnd_idempotent (s : jsstring) : trimEnd (trimEnd s) = trimEnd s.
Proof. unfold trimEnd. by rewrite rev_involutive, trimStart_idempotent. Qed.

Lemma trim_head (s : jsstring) :
  match trim s with c :: _ => is_white_space c | [] => false end = false.
Proof.
  unfold trim. destruct (trimEnd_prefix (trimStart s)) as [post H].
  pose proof (trimStart_head s) as Hh. rewrite H in Hh.
  by destruct (trimEnd (trimStart s)).
Qed.

Lemma trim_last (s : jsstring) :
  match rev (trim s) with c :: _ => is_white_space c | [] => false end = false.
Proof. unfold trim, trimEnd. rewrite rev_involutive. apply trimStart_head. Qed.

Lemma trim_idempotent (s : jsstring) : trim (trim s) = trim s.
Proof.
  unfold trim at 1. rewrite (trimStart_fixed _ (trim_head s)).
  unfold trim. apply trimEnd_idempotent.
Qed.

Lemma committed_clean (s : jsstring) : forallb clean_entry (committed s) = true.
Proof.
  unfold committed. destruct (truthy (trim s)) eqn:Ht; [|done].
  cbn. unfold clean_entry. by rewrite Ht, trim_head, trim_last.
Qed.

(** ** The history *)

Lemma history_cases (w : World) (ev : Event) :
  (ev = Toggle /\ idle w = true /\ transcriptHistory (step w ev) = [])
  \/ transcriptHistory (step w ev) = transcriptHistory w
  \/ transcriptHistory (step w ev)
     = transcriptHistory w ++ committed (currentTranscript w).
Proof.
  destruct (step_visible w ev) as [? ? H _ _|_ _ H _ _|? ? _ _ H _ _|? ? _ _ H _ _
                                  |p _ _ H _ _|p _ _ H _ _|t _ _ H _ _]; auto.
Qed.

(** X1. A step changes the history in one of two ways only: it appends
    the commit of the in-progress text (one trimmed entry, or nothing),
    or, for a toggle in the idle state, it empties it. *)
Theorem history_step (w : World) (ev : Event) :
  (ev = Toggle /\ idle w = true /\ transcriptHistory (step w ev) = [])
  \/ (exists entries,
        transcriptHistory (step w ev) = transcriptHistory w ++ entries
        /\ (entries = [] \/ entries = committed (currentTranscript w))
        /\ length entries <= 1).
Proof.
  destruct (history_cases w ev) as [H|[H|H]]; [by left| |]; right.
  - exists []. rewrite app_nil_r. repeat split; auto.
  - exists (committed (currentTranscript w)). repeat split; auto.
    unfold committed. destruct (truthy _); cbn; lia.
Qed.

Lemma clean_step (w : World) (ev : Event) :
  forallb clean_entry (transcriptHistory w) = true ->
  forallb clean_entry (transcriptHistory (step w ev)) = true.
Proof.
  intros Hw.
  destruct (history_cases w ev) as [(_ & _ & ->)|[->| ->]]; try done.
  by rewrite forallb_app, Hw, committed_clean.
Qed.

Lemma clean_run (evs : list Event) (w : World) :
  forallb clean_entry (transcriptHistory w) = true ->
  forallb clean_entry (transcriptHistory (run w evs)) = true.
Proof.
  revert w. induction evs as [|ev evs IH]; intros w Hw; [done|].
  rewrite run_cons. by apply IH, clean_step.
Qed.

(** X2. Whatever happens after mounting, no entry of the history is
    empty and none has white space at either end. *)
Theorem history_entries_clean (key : option jsstring) (evs : list Event) :
  forallb clean_entry (transcriptHistory (run (mount key) evs)) = true.
Proof. by apply clean_run. Qed.

(** ** The flags *)

Lemma coherent_step (w : World) (ev : Event) :
  coherent w = true -> coherent (step w ev) = true.
Proof.
  unfold coherent, idle.
  destruct (step_visible w ev) as [Hr Hc _ _ Hp|Hr Hc _ _ Hp|_ Hi Hr Hc _ _ Hp
                                  |_ Hi Hr Hc _ _ Hp|p Hr Hc _ _ Hp|p Hr Hc _ _ Hp
                                  |t Hr Hc _ _ Hp];
    rewrite Hr, Hc, Hp; try done.
  cbn. intros H. apply andb_true_iff in H as [H _]. by rewrite H, orb_true_r.
Qed.

Lemma coherent_run (evs : list Event) (w : World) :
  coherent w = true -> coherent (run w evs) = true.
Proof.
  revert w. induction evs as [|ev evs IH]; intros w Hw; [done|].
  rewrite run_cons. by apply IH, coherent_step.
Qed.

(** X3. Whatever happens after mounting, the controller is never
    recording and connecting at once, and while it is recording the
    processor node that [stopRecording] will disconnect is in its ref. *)
Theorem flags_coherent (key : option jsstring) (evs : list Event) :
  let w := run (mount key) evs in
  isRecording w && isConnecting w = false
  /\ (if isRecording w then non_null (scriptProcessorRef w) else true) = true.
Proof.
  cbn zeta. pose proof (coherent_run evs (mount key) eq_refl) as H.
  unfold coherent in H.
  destruct (isRecording _), (isConnecting _), (scriptProcessorRef _); done.
Qed.

(** ** The view *)

Lemma join_snoc (sep : jsstring) (l : list jsstring) (x : jsstring) :
  join sep (l ++ [x]) = if non_empty l then join sep l ++ sep ++ x else x.
Proof.
  destruct l as [|y l]; cbn; [by rewrite app_nil_r|].
  rewrite flat_map_app. cbn. by rewrite app_nil_r, <- app_assoc.
Qed.

(** X4. Stopping does not change the transcript as it reads on screen,
    apart from trimming the in-progress text: what is shown after
    [stopRecording] is what was shown before with that text trimmed. The
    separator the view puts before the in-progress text is the one
    [join] puts before the committed entry. *)
Theorem stop_keeps_text (w : World) :
  pane_text (pane (render (exec stopRecording w)))
  = pane_text
      (pane (render (with_currentTranscript (trim (currentTranscript w)) w))).
Proof.
  rewrite exec_stopRecording.
  destruct w as [rec con lang hist cur ses str ctx proc key invs tr].
  unfold render, stopped, committed. cbn.
  destruct (trim cur) as [|c t] eqn:Ht; cbn.
  - rewrite !app_nil_r.
    destruct hist as [|h hist]; cbn; [by destruct rec, con|].
    by rewrite !app_nil_r.
  - rewrite join_snoc. destruct hist as [|h hist]; cbn.
    + by rewrite !app_nil_r.
    + by rewrite !app_nil_r, <- !app_assoc.
Qed.

(** X5. Whatever happens after mounting, the parts of the view agree:
    the stop icon, the cursor and the "Listening..." status are shown
    together, the button is disabled exactly under "Connecting...", the
    selector exactly when the status is not "Ready to record", the
    placeholder only under "Ready to record"; and an enabled button does
    what its icon says. *)
Theorem view_coherent (key : option jsstring) (evs : list Event) :
  let w := run (mount key) evs in
  let v := render w in
  let listening := String.eqb (status v) "Listening..." in
  match button_icon v with StopIcon => true | MicIcon => false end = listening
  /\ shows_cursor (pane v) = listening
  /\ button_disabled v = String.eqb (status v) "Connecting..."
  /\ select_disabled v = negb (String.eqb (status v) "Ready to record")
  /\ (pane v = Placeholder -> status v = "Ready to record"%string)
  /\ (button_disabled v = false ->
      handleToggleRecording w
      = match button_icon v with
        | StopIcon => stopRecording w
        | MicIcon => startRecording w
        end).
Proof.
  cbn zeta. pose proof (coherent_run evs (mount key) eq_refl) as Hx.
  unfold coherent in Hx. apply andb_true_iff in Hx as [Hx _].
  apply negb_true_iff in Hx.
  set (w := run (mount key) evs) in *.
  unfold render, handleToggleRecording, bind, gets. cbn.
  destruct (isRecording w), (isConnecting w); try discriminate Hx;
    rewrite ?andb_false_r; cbn; repeat split; try done.
  all: destruct (negb _ && negb _); cbn; done.
Qed.

(** ** Whole runs *)

Lemma run_app (w : World) (evs evs' : list Event) :
  run w (evs ++ evs') = run (run w evs) evs'.
Proof. apply fold_left_app. Qed.

Lemma closed_step (w : World) (i : nat) (inv : Invocation) :
  invocations w !! i = Some inv -> connect_called inv = true ->
  step w (Closed i) = stopped w.
Proof.
  intros Hi Hc. unfold step, dispatch, on_invocation, onclose.
  rewrite Hi, Hc. apply exec_stopRecording.
Qed.

Lemma message_step (w : World) (i : nat) (inv : Invocation) (d : jsstring) :
  invocations w !! i = Some inv -> connect_called inv = true ->
  step w (Message i (server_text d))
  = with_currentTranscript (currentTranscript w ++ d) w.
Proof.
  intros Hi Hc. unfold step, dispatch, on_invocation. by rewrite Hi, Hc.
Qed.

Lemma messages_run (ds : list jsstring) (w : World) (i : nat) (inv : Invocation) :
  invocations w !! i = Some inv -> connect_called inv = true ->
  run w (map (fun d => Message i (server_text d)) ds)
  = with_currentTranscript (currentTranscript w ++ concat ds) w.
Proof.
  revert w. induction ds as [|d ds IH]; intros w Hi Hc.
  - cbn. rewrite app_nil_r. by destruct w.
  - cbn [map]. rewrite run_cons, (message_step w i inv d Hi Hc).
    rewrite IH by (by destruct w). destruct w; cbn. by rewrite <- app_assoc.
Qed.

Lemma opened_step (w : World) (i : nat) (inv : Invocation)
    (source : nat) (p : ScriptProcessorNode) :
  invocations w !! i = Some inv -> connect_called inv = true ->
  step w (Opened i {| createMediaStreamSource := Normal source;
                      createScriptProcessor := Normal p;
                      connect_processor := Normal tt;
                      connect_destination := Normal tt |})
  = with_isRecording true
      (with_isConnecting false
         (with_invocations
            (<[i := with_onaudioprocess_set true inv]> (invocations w))
            (with_scriptProcessorRef (Some p) w))).
Proof.
  intros Hi Hc. unfold step, dispatch, on_invocation. rewrite Hi, Hc.
  cbn [when]. unfold exec. rewrite onopen_run. cbn.
  by rewrite (alter_found _ _ _ _ Hi).
Qed.

Lemma device_step (w : World) (i : nat) (inv : Invocation)
    (s : MediaStream) (c : AudioContext) :
  invocations w !! i = Some inv -> awaiting_getUserMedia inv = true ->
  step w (GetUserMediaSettled i (Normal s) (Normal c))
  = with_invocations
      (<[i := with_sessionPromise (Some Pending)
                (with_locals s c (with_awaiting_getUserMedia false inv))]>
         (invocations w))
      (with_trace
         (trace w ++ [Connect model (systemInstruction (captured_language inv))])
         (with_audioContextRef (Some c) (with_streamRef (Some s) w))).
Proof.
  intros Hi Ha. unfold step, dispatch, on_invocation. rewrite Hi, Ha.
  cbn [when]. unfold exec. rewrite resume_getUserMedia_run. cbn [snd].
  assert (Hlt : i < length (invocations w)) by (by eapply lookup_lt_Some).
  destruct w; cbn [invocations with_invocations with_trace with_streamRef
                   with_audioContextRef trace] in *.
  rewrite (alter_found _ _ _ _ Hi).
  erewrite alter_found by (by apply list_lookup_insert_eq).
  by rewrite list_insert_insert_eq.
Qed.

(** X6. A whole session, from an idle controller with a credential: the
    device and the socket open, the connection resolves, deltas arrive
    and the remote end closes. The controller is idle again, the history
    is the one trimmed concatenation of the deltas (or empty), nothing is
    held, and the host has seen the two requests followed by the release
    of exactly what the session acquired. *)
Theorem whole_session (w : World) (s : MediaStream) (c : AudioContext)
    (source : nat) (p : ScriptProcessorNode) (session : LiveSession)
    (deltas : list jsstring) :
  idle w = true ->
  key_present (API_KEY w) = true ->
  let i := length (invocations w) in
  let w' := run w
              ([Toggle;
                GetUserMediaSettled i (Normal s) (Normal c);
                Opened i {| createMediaStreamSource := Normal source;
                            createScriptProcessor := Normal p;
                            connect_processor := Normal tt;
                            connect_destination := Normal tt |};
                SessionSettled i (Normal session)]
               ++ map (fun d => Message i (server_text d)) deltas
               ++ [Closed i]) in
  idle w' = true
  /\ transcriptHistory w' = committed (concat deltas)
  /\ currentTranscript w' = []
  /\ (sessionRef w' = None /\ streamRef w' = None
      /\ scriptProcessorRef w' = None)
  /\ trace w'
     = trace w
       ++ [GetUserMedia; Connect model (systemInstruction (language w))]
       ++ [SessionClose session] ++ map TrackStop (getTracks s)
       ++ [NodeDisconnect p]
       ++ (if is_closed (state c) then [] else [ContextClose c]).
Proof.
  intros Hidle Hkey. cbn zeta.
  set (i := length (invocations w)).
  match goal with |- context [run w ?evs] => set (final := run w evs) end.
  assert (Hfinal : exists x,
            final = stopped x
            /\ transcriptHistory x = [] /\ currentTranscript x = concat deltas
            /\ sessionRef x = Some session /\ streamRef x = Some s
            /\ scriptProcessorRef x = Some p /\ audioContextRef x = Some c
            /\ trace x
               = trace w
                 ++ [GetUserMedia; Connect model (systemInstruction (language w))]).
  { subst final. rewrite run_app, !run_cons. change (run ?x []) with x.
    rewrite toggle_when_idle, exec_startRecording, Hkey by done.
    subst i. rewrite getUserMedia_settled.
    set (i := length (invocations w)).
    set (inv0 := with_sessionPromise (Some Pending)
                   (with_locals s c
                      (with_awaiting_getUserMedia false (fresh (language w))))).
    assert (H0 : invocations (connecting w s c) !! i = Some inv0).
    { subst i inv0. destruct w.
      cbn [connecting with_invocations invocations language].
      apply lookup_last_invocation. }
    rewrite (opened_step _ i inv0 source p H0 eq_refl).
    set (w1 := with_isRecording true _).
    set (inv1 := with_onaudioprocess_set true inv0).
    assert (Hlt : i < length (invocations (connecting w s c)))
      by (by eapply lookup_lt_Some).
    assert (H1 : invocations w1 !! i = Some inv1).
    { subst w1. destruct (connecting w s c); cbn in *.
      by apply list_lookup_insert_eq. }
    rewrite (session_fulfilled w1 i inv1 session H1 eq_refl).
    set (w2 := with_trace _ _).
    set (inv2 := with_reactions []
                   (with_sessionPromise (Some (Fulfilled session)) inv1)).
    assert (H2 : invocations w2 !! i = Some inv2).
    { subst w2.
      assert (i < length (invocations w1)) by (by eapply lookup_lt_Some).
      destruct w1; cbn in *. by apply list_lookup_insert_eq. }
    rewrite run_app, (messages_run deltas w2 i inv2 H2 eq_refl).
    rewrite run_cons. change (run ?x []) with x.
    assert (H3 : invocations
                   (with_currentTranscript (currentTranscript w2 ++ concat deltas) w2)
                 !! i = Some inv2) by (by destruct w2).
    rewrite (closed_step _ i inv2 H3 eq_refl).
    eexists. split; [reflexivity|].
    subst w2 w1. clear. destruct w. cbn. by rewrite ?app_nil_r, <- ?app_assoc. }
  destruct Hfinal as (x & -> & Hh & Hc & Hses & Hstr & Hp & Hctx & Ht).
  destruct x as [rec con lang hist cur ses str ctx proc key invs tr].
  cbn in *. subst. unfold committed.
  destruct (is_closed (state c)); cbn;
    rewrite <- ?app_assoc; repeat split.
Qed.

Lemma whole_session_witness :
  let w := mount Sample.key in
  let deltas := [lit "Hel"; lit "lo "; lit " world"] in
  idle w = true
  /\ key_present (API_KEY w) = true
  /\ transcriptHistory
       (run w ([Toggle;
                GetUserMediaSettled 0 (Normal Sample.microphone) (Normal Sample.audio);
                Opened 0 {| createMediaStreamSource := Normal 3;
                            createScriptProcessor := Normal 4;
                            connect_processor := Normal tt;
                            connect_destination := Normal tt |};
                SessionSettled 0 (Normal 5)]
               ++ map (fun d => Message 0 (server_text d)) deltas
               ++ [Closed 0]))
     = committed (concat deltas).
Proof.
  cbn zeta.
  assert (Hidle : idle (mount Sample.key) = true) by reflexivity.
  assert (Hkey : key_present (API_KEY (mount Sample.key)) = true) by reflexivity.
  split; [exact Hidle|]. split; [exact Hkey|].
  destruct (whole_session (mount Sample.key) Sample.microphone Sample.audio
              3 4 5 [lit "Hel"; lit "lo "; lit " world"] Hidle Hkey)
    as (_ & H & _).
  exact H.
Defined.

Lemma insert_last_invocation (l : list Invocation) (x y : Invocation) :
  <[length l := y]> (l ++ [x]) = l ++ [y].
Proof. induction l as [|z l IH]; cbn; [done | f_equal; exact IH]. Qed.

(** ** Stopping while a start is in flight *)

(** X7. [stopRecording] does not cancel a start that is waiting for the
    device: when the device request resolves after a stop, the stream and
    the audio context are stored and the connection is requested all the
    same, with the controller idle and nothing released; and once the
    socket opens the state is what it would have been without the stop. *)
Theorem stop_does_not_cancel_start (w0 : World) (s : MediaStream)
    (c : AudioContext) (source : nat) (p : ScriptProcessorNode) :
  key_present (API_KEY w0) = true ->
  let w := at_rest w0 in
  let i := length (invocations w) in
  let device := GetUserMediaSettled i (Normal s) (Normal c) in
  let opened := Opened i {| createMediaStreamSource := Normal source;
                            createScriptProcessor := Normal p;
                            connect_processor := Normal tt;
                            connect_destination := Normal tt |} in
  let w1 := step (exec stopRecording (step w Toggle)) device in
  idle w1 = true
  /\ streamRef w1 = Some s
  /\ audioContextRef w1 = Some c
  /\ trace w1
     = trace w ++ [GetUserMedia; Connect model (systemInstruction (language w))]
  /\ step w1 opened = run w [Toggle; device; opened].
Proof.
  intros Hkey. cbn zeta.
  assert (Hkey' : key_present (API_KEY (at_rest w0)) = true) by (by destruct w0).
  set (w := at_rest w0) in *. set (i := length (invocations w)).
  assert (Hidle : idle w = true) by reflexivity.
  assert (Hs : step w Toggle = started w).
  { by rewrite toggle_when_idle, exec_startRecording, Hkey'. }
  assert (Hi : invocations (stopped (started w)) !! i = Some (fresh (language w))).
  { subst i w. destruct w0. cbn [at_rest started stopped reset invocations
      with_invocations with_trace with_transcriptHistory with_currentTranscript
      with_isConnecting language].
    apply lookup_last_invocation. }
  assert (H1 : step (exec stopRecording (step w Toggle))
                 (GetUserMediaSettled i (Normal s) (Normal c))
               = with_isConnecting false (connecting w s c)).
  { rewrite Hs, exec_stopRecording, (device_step _ i _ s c Hi eq_refl).
    subst i w. destruct w0. cbn. rewrite insert_last_invocation.
    by rewrite !app_nil_r, <- app_assoc. }
  rewrite H1. repeat split; try by (subst w; destruct w0).
  rewrite !run_cons. change (run ?x []) with x.
  rewrite Hs. unfold i at 2. rewrite getUserMedia_settled. fold i.
  set (inv0 := with_sessionPromise (Some Pending)
                 (with_locals s c
                    (with_awaiting_getUserMedia false (fresh (language w))))).
  assert (H0 : invocations (connecting w s c) !! i = Some inv0).
  { subst i inv0 w. destruct w0.
    cbn [at_rest connecting with_invocations invocations language].
    apply lookup_last_invocation. }
  assert (H0' : invocations (with_isConnecting false (connecting w s c)) !! i
                = Some inv0) by (by destruct (connecting w s c)).
  rewrite (opened_step _ i inv0 source p H0 eq_refl).
  rewrite (opened_step _ i inv0 source p H0' eq_refl).
  by destruct (connecting w s c).
Qed.

Lemma stop_does_not_cancel_start_witness :
  let w := at_rest (mount Sample.key) in
  key_present (API_KEY (mount Sample.key)) = true
  /\ streamRef
       (step (exec stopRecording (step w Toggle))
          (GetUserMediaSettled 0 (Normal Sample.microphone) (Normal Sample.audio)))
     = Some Sample.microphone.
Proof.
  cbn zeta.
  assert (Hkey : key_present (API_KEY (mount Sample.key)) = true) by reflexivity.
  split; [exact Hkey|].
  destruct (stop_does_not_cancel_start (mount Sample.key) Sample.microphone
              Sample.audio 3 4 Hkey) as (_ & H & _).
  exact H.
Defined.

(** X8. Nor does it cancel a pending connection: when the session
    promise resolves after a stop, the session is stored in its ref and
    the frames queued before the stop are sent on it, with the controller
    idle; the session is the one thing a further stop would release. *)
Theorem session_kept_after_stop (w : World) (i : nat) (inv : Invocation)
    (session : LiveSession) :
  invocations w !! i = Some inv ->
  sessionPromise inv = Some Pending ->
  let w' := step (exec stopRecording w) (SessionSettled i (Normal session)) in
  idle w' = true
  /\ sessionRef w' = Some session
  /\ trace w'
     = trace w ++ released w
       ++ map (SendRealtimeInput session) (reactions inv)
  /\ released w' = [SessionClose session].
Proof.
  intros Hi Hp. cbn zeta. rewrite exec_stopRecording.
  assert (Hi' : invocations (stopped w) !! i = Some inv) by (by destruct w).
  rewrite (session_fulfilled _ i inv session Hi' Hp).
  destruct w as [rec con lang hist cur ses str ctx proc key invs tr].
  unfold released. cbn.
  repeat split; [by rewrite <- app_assoc|].
  destruct ctx as [a|]; [|done].
  by destruct (is_closed (state a)) eqn:Ha; cbn; rewrite ?Ha.
Qed.

Lemma session_kept_after_stop_witness :
  exists inv,
    invocations Sample.opening !! 0 = Some inv
    /\ sessionPromise inv = Some Pending
    /\ sessionRef (step (exec stopRecording Sample.opening)
                     (SessionSettled 0 (Normal 5)))
       = Some 5.
Proof.
  assert (Hinv : exists inv, invocations Sample.opening !! 0 = Some inv
                   /\ sessionPromise inv = Some Pending).
  { eexists. vm_compute. split; reflexivity. }
  destruct Hinv as (inv & Hi & Hp). exists inv.
  split; [exact Hi|]. split; [exact Hp|].
  destruct (session_kept_after_stop Sample.opening 0 inv 5 Hi Hp) as (_ & H & _).
  exact H.
Defined.

(** X9. A delta that arrives after a stop is not lost and is not merged
    with what the stop committed: it waits in the in-progress transcript
    of the idle controller, and the close event that follows commits it
    as an entry of its own. *)
Theorem late_delta_committed (w : World) (i : nat) (inv : Invocation)
    (d : jsstring) :
  invocations w !! i = Some inv ->
  connect_called inv = true ->
  let w1 := step (exec stopRecording w) (Message i (server_text d)) in
  let w2 := step w1 (Closed i) in
  (idle w1 = true /\ currentTranscript w1 = d)
  /\ transcriptHistory w2
     = transcriptHistory w ++ committed (currentTranscript w) ++ committed d
  /\ currentTranscript w2 = [].
Proof.
  intros Hi Hc. cbn zeta. rewrite exec_stopRecording.
  assert (Hi' : invocations (stopped w) !! i = Some inv) by (by destruct w).
  rewrite (message_step _ i inv d Hi' Hc).
  erewrite closed_step; [|by (instantiate (1 := inv); destruct w)|done].
  destruct w. cbn. by rewrite <- app_assoc.
Qed.

Lemma late_delta_committed_witness :
  exists inv,
    invocations Sample.streaming !! 0 = Some inv
    /\ connect_called inv = true
    /\ transcriptHistory
         (step (step (exec stopRecording Sample.streaming)
                  (Message 0 (server_text (lit " late "))))
            (Closed 0))
       = transcriptHistory Sample.streaming
         ++ committed (currentTranscript Sample.streaming)
         ++ committed (lit " late ").
Proof.
  assert (Hinv : exists inv, invocations Sample.streaming !! 0 = Some inv
                   /\ connect_called inv = true).
  { eexists. vm_compute. split; reflexivity. }
  destruct Hinv as (inv & Hi & Hc). exists inv.
  split; [exact Hi|]. split; [exact Hc|].
  destruct (late_delta_committed Sample.streaming 0 inv (lit " late ") Hi Hc)
    as (_ & H & _).
  exact H.
Defined.

(** ** A failing open *)

(** X10. An exception in [onopen] is outside the [try] of
    [startRecording]: when one of its Web Audio calls throws, nothing is
    unwound. The host sees no alert and no release; the flags, the
    transcript and the stream, context and session refs are as they
    were, so a controller that was connecting is still connecting, its
    button disabled. A throw in one of the two constructions leaves the
    whole state as it was; a throw in one of the two [connect] calls
    comes after the processor ref and the frame handler were assigned,
    and they stay assigned. *)
Theorem failed_open_not_unwound (w : World) (i : nat) (host : OpenHost) :
  open_throws host = true ->
  let w' := step w (Opened i host) in
  (isRecording w' = isRecording w /\ isConnecting w' = isConnecting w
   /\ transcriptHistory w' = transcriptHistory w
   /\ currentTranscript w' = currentTranscript w)
  /\ (streamRef w' = streamRef w /\ audioContextRef w' = audioContextRef w
      /\ sessionRef w' = sessionRef w)
  /\ trace w' = trace w
  /\ button_disabled (render w') = isConnecting w
  /\ (create_throws host = true -> w' = w)
  /\ (forall inv source p,
        invocations w !! i = Some inv -> connect_called inv = true ->
        createMediaStreamSource host = Normal source ->
        createScriptProcessor host = Normal p ->
        scriptProcessorRef w' = Some p
        /\ invocations w' !! i = Some (with_onaudioprocess_set true inv)).
Proof.
  intros Hthrow. cbn zeta.
  unfold open_throws, create_throws in *.
  unfold step, dispatch, on_invocation.
  destruct (invocations w !! i) as [inv|] eqn:Hi;
    [destruct (connect_called inv) eqn:Hc|];
    try (cbn; repeat match goal with |- _ /\ _ => split end; try done;
         intros; congruence).
  cbn [when]. unfold exec. rewrite onopen_run.
  destruct (createMediaStreamSource host) as [src|e],
    (createScriptProcessor host) as [p|e']; cbn zeta; cbn [snd];
    try (repeat match goal with |- _ /\ _ => split end; try done;
         intros; congruence).
  assert (Hatt : alter (with_onaudioprocess_set true) i (invocations w) !! i
                 = Some (with_onaudioprocess_set true inv))
    by (by rewrite list_lookup_alter_eq, Hi).
  destruct (connect_processor host) as [[]|e1],
    (connect_destination host) as [[]|e2]; try discriminate Hthrow;
    cbn [snd]; repeat match goal with |- _ /\ _ => split end;
    try (by destruct w); try (intros; congruence).
  all: intros inv0 source p0 [= <-] _ _ [= <-]; split; [by destruct w|];
    (etransitivity; [|exact Hatt]); by destruct w.
Qed.

Lemma failed_open_not_unwound_witness :
  let w := run (mount Sample.key)
             [Toggle;
              GetUserMediaSettled 0 (Normal Sample.microphone) (Normal Sample.audio)] in
  let host := {| createMediaStreamSource := Normal 3;
                 createScriptProcessor := Normal 4;
                 connect_processor := Normal tt;
                 connect_destination := Throw (HostError "InvalidAccessError") |} in
  open_throws host = true
  /\ isConnecting (step w (Opened 0 host)) = true
  /\ trace (step w (Opened 0 host)) = trace w.
Proof.
  cbn zeta.
  set (host := {| createMediaStreamSource := Normal 3;
                  createScriptProcessor := Normal 4;
                  connect_processor := Normal tt;
                  connect_destination := Throw (HostError "InvalidAccessError") |}).
  assert (Hthrow : open_throws host = true) by reflexivity.
  split; [exact Hthrow|].
  destruct (failed_open_not_unwound
              (run (mount Sample.key)
                 [Toggle;
                  GetUserMediaSettled 0 (Normal Sample.microphone)
                    (Normal Sample.audio)])
              0 host Hthrow) as ((_ & Hc & _) & _ & Ht & _).
  split; [|exact Ht].
  rewrite Hc. vm_compute. reflexivity.
Defined.

(** ** A connection that fails *)

Lemma audio_when_rejected (w : World) (i : nat) (inv : Invocation)
    (e : JsError) (d : list Q) :
  invocations w !! i = Some inv ->
  sessionPromise inv = Some (Rejected e) ->
  step w (AudioProcess i d) = w.
Proof.
  intros Hi Hp. unfold step, dispatch, on_invocation. rewrite Hi, Hp.
  by destruct (onaudioprocess_set inv).
Qed.

Lemma audio_run_when_rejected (ds : list (list Q)) (w : World) (i : nat)
    (inv : Invocation) (e : JsError) :
  invocations w !! i = Some inv ->
  sessionPromise inv = Some (Rejected e) ->
  run w (map (AudioProcess i) ds) = w.
Proof.
  intros Hi Hp. induction ds as [|d ds IH]; [done|].
  cbn [map]. by rewrite run_cons, (audio_when_rejected w i inv e d Hi Hp).
Qed.

(** X11. When the connection fails, the frames queued for it are never
    sent, whatever their number, and the buffers the processor still
    delivers afterwards are discarded: the handler's [then] has no
    rejection branch. The controller is idle, through the [catch] of
    [startRecording]. *)
Theorem frames_dropped_on_rejection (w : World) (i : nat) (inv : Invocation)
    (e : JsError) (after : list (list Q)) :
  invocations w !! i = Some inv ->
  sessionPromise inv = Some Pending ->
  let w1 := step w (SessionSettled i (Throw e)) in
  let w2 := run w1 (map (AudioProcess i) after) in
  sends (trace w2) = sends (trace w)
  /\ w2 = w1
  /\ idle w2 = true
  /\ (exists inv', invocations w2 !! i = Some inv' /\ reactions inv' = []).
Proof.
  intros Hi Hp. cbn zeta.
  assert (Hlt : i < length (invocations w)) by (by eapply lookup_lt_Some).
  set (inv' := with_reactions [] (with_sessionPromise (Some (Rejected e)) inv)).
  assert (H1 : step w (SessionSettled i (Throw e))
               = caught (with_invocations (<[i := inv']> (invocations w)) w)).
  { unfold step, dispatch, on_invocation. rewrite Hi, Hp.
    unfold exec. rewrite settle_sessionPromise_run. cbn [snd].
    by rewrite (alter_found _ _ _ _ Hi). }
  assert (Hi' : invocations (step w (SessionSettled i (Throw e))) !! i = Some inv').
  { rewrite H1, invocations_caught. destruct w; cbn in *.
    by apply list_lookup_insert_eq. }
  rewrite (audio_run_when_rejected after _ i inv' e Hi' eq_refl).
  split; [|split; [done|split; [|by exists inv']]].
  - rewrite H1, sends_caught. by destruct w.
  - rewrite H1. by destruct w.
Qed.

Lemma frames_dropped_on_rejection_witness :
  exists inv,
    invocations Sample.opening !! 0 = Some inv
    /\ sessionPromise inv = Some Pending
    /\ reactions inv <> []
    /\ sends (trace (run (step Sample.opening (SessionSettled 0 (Throw Sample.denied)))
                       (map (AudioProcess 0) [[1 # 2]%Q])))
       = sends (trace Sample.opening).
Proof.
  assert (Hinv : exists inv, invocations Sample.opening !! 0 = Some inv
                   /\ sessionPromise inv = Some Pending
                   /\ reactions inv <> []).
  { eexists. vm_compute. repeat split. discriminate. }
  destruct Hinv as (inv & Hi & Hp & Hq). exists inv.
  split; [exact Hi|]. split; [exact Hp|]. split; [exact Hq|].
  destruct (frames_dropped_on_rejection Sample.opening 0 inv Sample.denied
              [[1 # 2]%Q] Hi Hp) as (H & _).
  exact H.
Defined.
